(** * BetterStackSink: a shallow embedding of [src/betterStackSink.ts]

    The sink receives structured log events, translates them to the
    ingestion service's record shape, optionally persists the serialized
    batch in [localStorage], posts it with [fetch] and removes the
    persisted copy once the request promise is fulfilled.

    JavaScript values are embedded as an inductive type, [localStorage] as
    a finite map from strings to strings, and every observable action
    (storage writes, network requests, console warnings) is appended to a
    trace carried by the world.  A promise that waits for a [fetch] is
    embedded as its reaction chain: the function that, once the request
    settles, runs the registered callbacks on the world of that moment. *)

From Stdlib Require Import Ascii.
From stdpp Require Import base strings gmap list pretty.

Local Open Scope string_scope.
Local Open Scope list_scope.
Local Open Scope Z_scope.

(** ** JavaScript values *)

(** The values that flow through the sink.  Numbers are the integer ones
    (level codes, clock readings, random draws); [VError] is an [Error]
    object, such as the [TypeError] a failed [fetch] rejects with, given
    by its [name] and [message]; [VResponse] stands for the [Response]
    object a fulfilled [fetch] hands over, with its HTTP status. *)
Inductive JsValue : Type :=
  | VUndefined
  | VNull
  | VBool (b : bool)
  | VNum (z : Z)
  | VStr (s : string)
  | VError (name message : string)
  | VResponse (status : Z).

Global Instance JsValue_eq_dec : EqDecision JsValue.
Proof. solve_decision. Defined.

(** [ToBoolean]: the falsy values are undefined, null, false, 0 and the
    empty string. *)
Definition truthy (v : JsValue) : bool :=
  match v with
  | VUndefined | VNull => false
  | VBool b => b
  | VNum z => negb (z =? 0)
  | VStr s => negb (String.eqb s "")
  | VError _ _ | VResponse _ => true
  end.

(** The [typeof] operator. *)
Definition typeof (v : JsValue) : string :=
  match v with
  | VUndefined => "undefined"
  | VNull => "object"
  | VBool _ => "boolean"
  | VNum _ => "number"
  | VStr _ => "string"
  | VError _ _ | VResponse _ => "object"
  end.

(** Strict equality [===] on the primitive values: same type and same
    value.  The sink only ever compares against the literal [false]. *)
Definition strict_eq (a b : JsValue) : bool := bool_decide (a = b).

Definition strict_neq (a b : JsValue) : bool := negb (strict_eq a b).

(** [ToString], as used by template literals and string concatenation.
    An [Error] prints as [Error.prototype.toString] has it: the message
    alone when the name is empty, the name alone when the message is
    empty, otherwise the name, a colon and the message.  An integer prints
    in decimal, which is what JavaScript writes for one of magnitude
    below 10^21 (see [decimalNumber]); clock readings, level codes and
    random draws are far below. *)
Definition js_to_string (v : JsValue) : string :=
  match v with
  | VUndefined => "undefined"
  | VNull => "null"
  | VBool true => "true"
  | VBool false => "false"
  | VNum z => pretty z
  | VStr s => s
  | VError name message =>
    if String.eqb name "" then message
    else if String.eqb message "" then name
    else name +:+ ": " +:+ message
  | VResponse _ => "[object Response]"
  end.


(** Reading a property that may be absent yields [undefined]. *)
Definition prop (o : option JsValue) : JsValue := default VUndefined o.

(** The [in] operator on an own, optional property. *)
Definition has_prop (o : option JsValue) : bool := bool_decide (is_Some o).

(** ** Strings *)

(** [starts_with p s]: [p] is a prefix of [s]. *)
Fixpoint starts_with (p s : string) : bool :=
  match p, s with
  | EmptyString, _ => true
  | String a p', String b s' => if Ascii.eqb a b then starts_with p' s' else false
  | String _ _, EmptyString => false
  end.

(** [String.prototype.indexOf]: the position of the first occurrence of
    [needle] in [s], counted from [i], or -1. *)
Fixpoint indexOf_from (i : Z) (s needle : string) : Z :=
  if starts_with needle s then i
  else match s with
       | EmptyString => -1
       | String _ s' => indexOf_from (i + 1) s' needle
       end.

Definition indexOf (s needle : string) : Z := indexOf_from 0 s needle.

(** ** The world: storage and the trace of observable actions *)

Record Request : Type := mkRequest {
  req_url : string;
  req_method : string;
  req_authorization : string;
  req_content_type : string;
  req_body : JsValue
}.

Inductive Effect : Type :=
  | ESetItem (key value : string)
  | ERemoveItem (key : string)
  | EFetch (r : Request)
  | EWarn (message : string).

(** What the runtime offers: [typeof localStorage !== 'undefined'] and
    [typeof console !== 'undefined' && console.warn]. *)
Record Runtime : Type := mkRuntime {
  hasLocalStorage : bool;
  hasConsoleWarn : bool
}.

Record World : Type := mkWorld {
  localStorage : gmap string string;
  trace : list Effect
}.

(** A synchronous computation reads and updates the world. *)
Definition Eff (A : Type) : Type := World → World * A.

Definition ret {A} (a : A) : Eff A := λ w, (w, a).

Definition bind {A B} (m : Eff A) (f : A → Eff B) : Eff B :=
  λ w, let '(w', a) := m w in f a w'.

Notation "'let*' x ':=' m 'in' k" := (bind m (λ x, k))
  (at level 10, x pattern, m at level 100, k at level 200).

(** Appends one action to the trace. *)
Definition record (e : Effect) : Eff unit :=
  λ w, (mkWorld (localStorage w) (trace w ++ [e]), tt).

(** [localStorage.setItem(key, value)] *)
Definition setItem (key value : string) : Eff unit :=
  λ w, (mkWorld (<[key := value]> (localStorage w)) (trace w ++ [ESetItem key value]), tt).

(** [localStorage.removeItem(key)]: no-op on the map when absent. *)
Definition removeItem (key : string) : Eff JsValue :=
  λ w, (mkWorld (delete key (localStorage w)) (trace w ++ [ERemoveItem key]), VUndefined).

(** [localStorage.getItem(key)]: the stored string, or [null]. *)
Definition getItem (key : string) : Eff JsValue :=
  λ w, (w, from_option VStr VNull (localStorage w !! key)).

(** [localStorage.length] *)
Definition storageLength : Eff nat := λ w, (w, size (localStorage w)).

(** [localStorage.key(i)]: the i-th key in the store's enumeration
    order, or [null] past the end. *)
Definition storageKey_at (i : nat) : Eff (option string) :=
  λ w, (w, (map_to_list (localStorage w)).*1 !! i).

(** ** Promises *)

(** How a promise settles. *)
Inductive Settled : Type :=
  | Fulfilled (value : JsValue)
  | Rejected (reason : JsValue).

(** A promise that waits for one [fetch]: given how the request settled,
    it runs its reactions on the world of that moment and settles. *)
Definition Pending : Type := Settled → Eff Settled.

(** The promise [fetch] returns settles as the request does. *)
Definition fetched : Pending := λ o, ret o.

(** [p.then(f)]: [f] runs on fulfilment; a rejection passes through. *)
Definition then_ (p : Pending) (f : JsValue → Eff JsValue) : Pending :=
  λ o, let* s := p o in
       match s with
       | Fulfilled v => let* r := f v in ret (Fulfilled r)
       | Rejected reason => ret (Rejected reason)
       end.

(** [p.catch(h)]: [h] runs on rejection and decides the outcome (a
    returned value fulfils, [Promise.reject] rejects); a fulfilment
    passes through. *)
Definition catch_ (p : Pending) (h : JsValue → Eff Settled) : Pending :=
  λ o, let* s := p o in
       match s with
       | Fulfilled v => ret (Fulfilled v)
       | Rejected reason => h reason
       end.

(** What a method hands back: a promise that is already settled
    ([Promise.resolve()]), or one waiting for its request. *)
Inductive Promise : Type :=
  | Resolved (s : Settled)
  | Awaiting (p : Pending).

(** [fetch(url, init)]: the request goes out now, its promise settles
    later: fulfilled with the [Response] when one arrives, whatever its
    status, and rejected when none does. *)
Definition fetch (r : Request) : Eff Pending :=
  let* _ := record (EFetch r) in ret fetched.

(** ** The data the sink handles *)

(** The constructor's argument.  A field that may be left out is an
    optional value; the fields hold arbitrary values because the
    constructor inspects them at run time. *)
Module Options.
Record t : Type := mk {
  token : JsValue;
  ingestionUri : option JsValue;
  suppressErrors : option JsValue;
  durable : option JsValue
}.
End Options.

(** An [Error]-like object carried by an event: whether it passes
    [instanceof Error], and its optional stack trace. *)
Record ErrorObject : Type := mkErrorObject {
  instanceofError : bool;
  stack : option string
}.

Record MessageTemplate : Type := mkMessageTemplate { raw : string }.

Module LogEvent.
Record t : Type := mk {
  timestamp : string;
  level : Z;
  messageTemplate : MessageTemplate;
  properties : gmap string JsValue;
  error : option ErrorObject
}.
End LogEvent.

(** The record built for one event; [logtail] is the nested object stored
    under the key [logtail@11993]. *)
Record Syslog : Type := mkSyslog {
  appname : JsValue;
  host : string;
  hostname : string;
  logtail : gmap string JsValue
}.

Module MappedEvent.
Record t : Type := mk {
  level : JsValue;
  message : string;
  properties : gmap string JsValue;
  dt : string;
  platform : string;
  osplatform : string;
  syslog : Syslog
}.
End MappedEvent.

(** The level filter of the host framework. *)
Record LevelSwitch : Type := mkLevelSwitch { isEnabled : Z → bool }.

(** The fields of a sink instance. *)
Record BetterStackSink : Type := mkSink {
  ingestionAddress : string;
  token : JsValue;
  levelSwitch : option LevelSwitch;
  suppressErrors : bool;
  durable : bool
}.

(** ** Translation *)

(** The property keys of an object literal are strings; a numeric key is
    its decimal rendering. *)
Definition levelMapping : gmap string string :=
  list_to_map
    [ ("0", "none"); ("1", "critical"); ("3", "error"); ("7", "warning");
      ("15", "info"); ("31", "debug"); ("63", "trace") ].

(** [this.levelMapping[level]] *)
Definition mapLogLevel (level : Z) : JsValue :=
  from_option VStr VUndefined (levelMapping !! js_to_string (VNum level)).

Definition getAppname (properties : gmap string JsValue) : JsValue :=
  if bool_decide (is_Some (properties !! "appname"))
  then prop (properties !! "appname")
  else VStr "unknown".

(** [e.error instanceof Error && e.error.stack], as a condition. *)
Definition hasStack (error : option ErrorObject) : bool :=
  match error with
  | Some err => instanceofError err && truthy (prop (VStr <$> stack err))
  | None => false
  end.

(** The arrow function mapped over the events in [sendToServer]. *)
Definition mapEvent (e : LogEvent.t) : MappedEvent.t :=
  let mappedEvent :=
    MappedEvent.mk (mapLogLevel (LogEvent.level e))
                   (raw (LogEvent.messageTemplate e))
                   (LogEvent.properties e)
                   (LogEvent.timestamp e)
                   "browser" "browser" in
  let syslog := mkSyslog (getAppname (LogEvent.properties e)) "localhost" "localhost" in
  let logtail : gmap string JsValue := ∅ in
  let logtail :=
    if hasStack (LogEvent.error e)
    then <["ExceptionDetail" := prop (VStr <$> (LogEvent.error e ≫= stack))]> logtail
    else logtail in
  mappedEvent (syslog logtail).

(** ** The sink *)

Definition storagePrefix : string := "structured-log-betterstack-sink".

Definition defaultIngestionAddress : string := "https://in.logs.betterstack.com".

(** What a constructor call yields: the thrown [Error]'s message, or the
    instance together with the [requests] object of the replay loop. *)
Definition Constructed : Type := string + BetterStackSink * gmap string Pending.

Section Sink.

(** The runtime the sink runs in, and [JSON.stringify] on the array of
    translated records.  A durable instance exists only in a runtime with
    [localStorage] (see [constructor]), so the store is there whenever a
    method reaches for it. *)
Variable rt : Runtime.
Variable JSON_stringify : list MappedEvent.t → string.

Definition logSuppressedError (reason : JsValue) : Eff JsValue :=
  let* _ :=
    if hasConsoleWarn rt
    then record (EWarn ("Suppressed error when logging to Betterstack: " +:+ js_to_string reason))
    else ret tt in
  ret VUndefined.

(** The handler both delivery paths pass to [catch]. *)
Definition onRejected (this : BetterStackSink) (reason : JsValue) : Eff Settled :=
  if suppressErrors this
  then let* r := logSuppressedError reason in ret (Fulfilled r)
  else ret (Rejected reason).

Definition sendRecord (this : BetterStackSink) (body : JsValue)
    (done : option (JsValue → JsValue)) : Eff Pending :=
  let* promise :=
    fetch {| req_url := ingestionAddress this;
             req_authorization := "Bearer " +:+ js_to_string (token this);
             req_content_type := "application/json";
             req_method := "POST";
             req_body := body |} in
  ret (match done with
       | None => promise
       | Some done => then_ promise (λ response, ret (done response))
       end).

(** The key of a fresh batch; [now] is [new Date().getTime()] and [rnd]
    is [Math.floor(Math.random() * 1000000)]. *)
Definition newStorageKey (now rnd : Z) : string :=
  storagePrefix +:+ "-" +:+ js_to_string (VNum now) +:+ "-" +:+ js_to_string (VNum (rnd + 1)).

Definition sendToServer (this : BetterStackSink) (events : list LogEvent.t)
    (now rnd : Z) : Eff Promise :=
  let logs := map mapEvent events in
  let body := JSON_stringify logs in
  let* storageKey :=
    if durable this
    then let storageKey := newStorageKey now rnd in
         let* _ := setItem storageKey body in ret (VStr storageKey)
    else ret VUndefined in
  let* promise := sendRecord this (VStr body) None in
  ret (Awaiting
    (catch_
      (then_ promise
        (λ _, if truthy storageKey
              then let* _ := removeItem (js_to_string storageKey) in ret VUndefined
              else ret VUndefined))
      (onRejected this))).

(** The events [emit] keeps: all of them when [levelSwitch] is [null]. *)
Definition filteredEvents (this : BetterStackSink) (events : list LogEvent.t)
    : list LogEvent.t :=
  match levelSwitch this with
  | Some sw => List.filter (λ e, isEnabled sw (LogEvent.level e)) events
  | None => events
  end.

Definition emit (this : BetterStackSink) (events : list LogEvent.t)
    (now rnd : Z) : Eff Promise :=
  let filteredEvents := filteredEvents this events in
  if negb (bool_decide (length filteredEvents ≠ 0%nat))
  then ret (Resolved (Fulfilled VUndefined))
  else sendToServer this filteredEvents now rnd.

Definition flush (this : BetterStackSink) : Eff Promise :=
  ret (Resolved (Fulfilled VUndefined)).

Definition toString (this : BetterStackSink) : string := "BetterStackSink".

(** The body of the replay loop for index [i], run for the [n] indices
    from [i] on.  [localStorage.key(i)] is a string for every index
    below [localStorage.length]; the loop leaves at the first index
    that is not. *)
Fixpoint replayFrom (this : BetterStackSink) (n i : nat)
    (requests : gmap string Pending) : Eff (gmap string Pending) :=
  match n with
  | O => ret requests
  | S n' =>
    let* len := storageLength in
    if bool_decide (i < len)%nat then
      let* key := storageKey_at i in
      match key with
      | None => ret requests
      | Some storageKey =>
        if negb (indexOf storageKey storagePrefix =? 0)
        then replayFrom this n' (S i) requests
        else
          let* body := getItem storageKey in
          let* promise := sendRecord this body (Some (λ _, VStr storageKey)) in
          let request :=
            catch_ (then_ promise (λ k, removeItem (js_to_string k)))
                   (onRejected this) in
          replayFrom this n' (S i) (<[storageKey := request]> requests)
      end
    else ret requests
  end.

Definition constructor (options : option Options.t) : Eff Constructed :=
  match options with
  | None => ret (inl "'options' parameter is required.")
  | Some options =>
    if negb (truthy (Options.token options))
    then ret (inl "'options.token' parameter is required.")
    else
      let token := Options.token options in
      let suppressErrors :=
        strict_neq (prop (Options.suppressErrors options)) (VBool false) in
      let ingestionAddress :=
        if has_prop (Options.ingestionUri options)
           && truthy (prop (Options.ingestionUri options))
           && String.eqb (typeof (prop (Options.ingestionUri options))) "string"
        then js_to_string (prop (Options.ingestionUri options))
        else defaultIngestionAddress in
      let* durable :=
        if has_prop (Options.durable options)
           && truthy (prop (Options.durable options))
           && negb (hasLocalStorage rt)
        then
          let* _ :=
            if hasConsoleWarn rt
            then record (EWarn "'options.durable' parameter was set to true, but 'localStorage' is not available.")
            else ret tt in
          ret false
        else ret (truthy (prop (Options.durable options))) in
      let this := mkSink ingestionAddress token None suppressErrors durable in
      let* requests :=
        if durable
        then let* len := storageLength in replayFrom this len 0 ∅
        else ret ∅ in
      ret (inr (this, requests))
  end.

(** ** Settlement *)

(** The outcome of a promise once its request has settled as [o]; a
    promise that never waited ignores [o]. *)
Definition settle (p : Promise) (o : Settled) : Eff Settled :=
  match p with
  | Resolved s => ret s
  | Awaiting k => k o
  end.

(** An [emit] call followed, with nothing in between, by the settlement
    of its request. *)
Definition emitAndSettle (this : BetterStackSink) (events : list LogEvent.t)
    (now rnd : Z) (o : Settled) : Eff Settled :=
  let* p := emit this events now rnd in settle p o.

End Sink.

(** ** Notions used to state the properties *)

(** The request the sink posts for a payload. *)
Definition requestFor (this : BetterStackSink) (body : JsValue) : Request :=
  {| req_url := ingestionAddress this;
     req_method := "POST";
     req_authorization := "Bearer " +:+ js_to_string (token this);
     req_content_type := "application/json";
     req_body := body |}.

(** The reactions [sendToServer] hangs on the request of a batch:
    remove the persisted copy, if there is one, on fulfilment; hand a
    rejection to the suppression policy. *)
Definition delivery (rt : Runtime) (this : BetterStackSink) (storageKey : JsValue) : Pending :=
  catch_
    (then_ fetched
      (λ _, if truthy storageKey
            then let* _ := removeItem (js_to_string storageKey) in ret VUndefined
            else ret VUndefined))
    (onRejected rt this).

(** The reactions the constructor hangs on the request of a stored
    batch: the completion callback hands the stored key on, the next
    reaction removes that key; a rejection goes to the suppression
    policy. *)
Definition replay (rt : Runtime) (this : BetterStackSink) (storageKey : string) : Pending :=
  catch_
    (then_ (then_ fetched (λ response, ret ((λ _ : JsValue, VStr storageKey) response)))
           (λ k, removeItem (js_to_string k)))
    (onRejected rt this).

(** The fields the constructor computes from well-formed options. *)
Definition configured (rt : Runtime) (options : Options.t) : BetterStackSink :=
  {| ingestionAddress :=
       if has_prop (Options.ingestionUri options)
          && truthy (prop (Options.ingestionUri options))
          && String.eqb (typeof (prop (Options.ingestionUri options))) "string"
       then js_to_string (prop (Options.ingestionUri options))
       else defaultIngestionAddress;
     token := Options.token options;
     levelSwitch := None;
     suppressErrors := strict_neq (prop (Options.suppressErrors options)) (VBool false);
     durable := truthy (prop (Options.durable options)) && hasLocalStorage rt |}.

(** How a delivery promise settles for a given settlement of its request,
    under the sink's suppression policy. *)
Definition verdict (this : BetterStackSink) (o : Settled) : Settled :=
  match o with
  | Fulfilled _ => Fulfilled VUndefined
  | Rejected reason => if suppressErrors this then Fulfilled VUndefined else Rejected reason
  end.

(** The requests of [requests] settle one after the other, in the order
    and with the outcomes of [outcomes]; yields how each promise settled. *)
Fixpoint settleAll (requests : gmap string Pending) (outcomes : list (string * Settled))
    : Eff (list (string * Settled)) :=
  match outcomes with
  | [] => ret []
  | (storageKey, o) :: rest =>
    match requests !! storageKey with
    | Some p =>
      let* s := p o in
      let* others := settleAll requests rest in
      ret ((storageKey, s) :: others)
    | None => settleAll requests rest
    end
  end.

(** Some request filed under [storageKey] is fulfilled in [outcomes]. *)
Definition acknowledged (outcomes : list (string * Settled)) (storageKey : string) : bool :=
  existsb (λ ko, bool_decide (ko.1 = storageKey)
                 && match ko.2 with Fulfilled _ => true | Rejected _ => false end)
          outcomes.

(** A key bears the sink's namespace prefix. *)
Definition namespaced (key : string) : bool := starts_with storagePrefix key.

(** The stored entries whose key is namespaced. *)
Definition pendingBatches (storage : gmap string string) : gmap string string :=
  filter (λ kv, namespaced kv.1 = true) storage.

(** The same entries in the store's enumeration order. *)
Definition pendingEntries (storage : gmap string string) : list (string * string) :=
  List.filter (λ kv, namespaced kv.1) (map_to_list storage).

(** The console warnings of a trace. *)
Definition warnings (t : list Effect) : list string :=
  omap (λ e, match e with EWarn m => Some m | _ => None end) t.

(** The requests of a trace. *)
Definition fetches (t : list Effect) : list Request :=
  omap (λ e, match e with EFetch r => Some r | _ => None end) t.

(** [Response.ok]: the status is in the range 200-299. *)
Definition response_ok (status : Z) : bool := (200 <=? status) && (status <=? 299).

(** The level table as the documentation gives it. *)
Definition levelTable (code : Z) : option string :=
  if code =? 0 then Some "none"
  else if code =? 1 then Some "critical"
  else if code =? 3 then Some "error"
  else if code =? 7 then Some "warning"
  else if code =? 15 then Some "info"
  else if code =? 31 then Some "debug"
  else if code =? 63 then Some "trace"
  else None.

(** A serializer to evaluate the sink with: the messages of the records,
    separated by commas, between brackets. *)
Definition messagesOnly (logs : list MappedEvent.t) : string :=
  "[" +:+ String.concat "," (map MappedEvent.message logs) +:+ "]".

(** No dash among the characters of a string. *)
Fixpoint dashFree (s : string) : bool :=
  match s with
  | EmptyString => true
  | String c s' => negb (Ascii.eqb c "-"%char) && dashFree s'
  end.

(** The writes to the storage of a trace. *)
Definition storageWrites (t : list Effect) : list Effect :=
  List.filter (λ e, match e with ESetItem _ _ | ERemoveItem _ => true | _ => false end) t.

(** The warning of [logSuppressedError] for a reason. *)
Definition suppressedWarning (reason : JsValue) : string :=
  "Suppressed error when logging to Betterstack: " +:+ js_to_string reason.

(** The warning of the constructor when durability cannot be had. *)
Definition downgradeWarning : string :=
  "'options.durable' parameter was set to true, but 'localStorage' is not available.".

(** ** Readings of the documented properties, to test them on inputs *)

(** After an [emit] call whose request was fulfilled, no namespaced key
    is stored. *)
Definition noKeysAfterSuccess (rt : Runtime) (ser : list MappedEvent.t → string)
    (this : BetterStackSink) (events : list LogEvent.t) (now rnd : Z)
    (response : JsValue) (w : World) : Prop :=
  size (pendingBatches
          (localStorage (emitAndSettle rt ser this events now rnd (Fulfilled response) w).1))
  = 0%nat.

(** The settlement [o] of the request is handled as a delivery failure:
    the persisted copy is still stored afterwards, and the outcome is the
    one the suppression policy gives for some reason. *)
Definition handledAsFailure (rt : Runtime) (ser : list MappedEvent.t → string)
    (this : BetterStackSink) (events : list LogEvent.t) (now rnd : Z)
    (o : Settled) (w : World) : Prop :=
  let sent := (emit rt ser this events now rnd w).1 in
  let done := emitAndSettle rt ser this events now rnd o w in
  is_Some (localStorage done.1 !! newStorageKey now rnd)
  ∧ ∃ reason, done = onRejected rt this reason sent.

(** The promise [emit] returned rejects when the request settles as [o]. *)
Definition failureRejects (rt : Runtime) (ser : list MappedEvent.t → string)
    (this : BetterStackSink) (events : list LogEvent.t) (now rnd : Z)
    (o : Settled) (w : World) : Prop :=
  ∃ reason, (emitAndSettle rt ser this events now rnd o w).2 = Rejected reason.

(** After an [emit] call whose request was rejected: one namespaced key
    is stored, the promise is fulfilled, and the call wrote one warning. *)
Definition oneKeyOneWarning (rt : Runtime) (ser : list MappedEvent.t → string)
    (this : BetterStackSink) (events : list LogEvent.t) (now rnd : Z)
    (reason : JsValue) (w : World) : Prop :=
  let done := emitAndSettle rt ser this events now rnd (Rejected reason) w in
  size (pendingBatches (localStorage done.1)) = 1%nat
  ∧ (∃ v, done.2 = Fulfilled v)
  ∧ ∃ m, warnings (trace done.1) = warnings (trace w) ++ [m].

(** ** Concrete inputs *)

(** A browser: [localStorage] and [console.warn] are there. *)
Definition browser : Runtime := mkRuntime true true.

(** A runtime with [localStorage] and without [console]. *)
Definition silentBrowser : Runtime := mkRuntime true false.

(** A runtime without [localStorage]. *)
Definition server : Runtime := mkRuntime false true.

Definition emptyWorld : World := mkWorld ∅ [].

Definition infoEvent : LogEvent.t :=
  LogEvent.mk "2024-05-01T10:00:00.000Z" 15 (mkMessageTemplate "started") ∅ None.

Definition durableSink : BetterStackSink :=
  mkSink defaultIngestionAddress (VStr "secret") None true true.

Definition strictSink : BetterStackSink :=
  mkSink defaultIngestionAddress (VStr "secret") None false true.

Definition networkDown : JsValue := VError "TypeError" "Failed to fetch".

(** Options that ask for durability, and options that only give a token. *)
Definition durableOptions : Options.t :=
  Options.mk (VStr "secret") None None (Some (VBool true)).

Definition plainOptions : Options.t :=
  Options.mk (VStr "secret") None None None.

(** Options that name an ingestion address of their own. *)
Definition customOptions : Options.t :=
  Options.mk (VStr "secret") (Some (VStr "https://logs.example.test")) None None.

(** A store with two batches left by an earlier run and a foreign entry. *)
Definition leftoverWorld : World :=
  mkWorld (<["structured-log-betterstack-sink-1-2" := "[a]"]>
             (<["theme" := "dark"]>
                (<["structured-log-betterstack-sink-3-4" := "[b]"]> ∅))) [].

(** The world a first [emit] call leaves when its request is rejected. *)
Definition worldAfterFailure : World :=
  (emitAndSettle browser messagesOnly durableSink [infoEvent] 17 4
     (Rejected networkDown) emptyWorld).1.

(** ** Strings and keys *)

Lemma starts_with_app p s : starts_with p (p +:+ s) = true.
Proof.
  induction p as [|a p IH]; simpl; [done|].
  by rewrite Ascii.eqb_refl.
Qed.

Lemma indexOf_from_range i s needle :
  indexOf_from i s needle = -1 ∨ i ≤ indexOf_from i s needle.
Proof.
  revert i. induction s as [|a s IH]; intros i; simpl.
  - destruct (starts_with needle ""); [right; lia | by left].
  - destruct (starts_with needle (String a s)); [right; lia|].
    destruct (IH (i + 1)) as [->| ?]; [by left | right; lia].
Qed.

Lemma indexOf_zero s needle :
  indexOf s needle = 0 ↔ starts_with needle s = true.
Proof.
  unfold indexOf. destruct s as [|a s]; simpl.
  - destruct (starts_with needle ""); [done | split; [lia | done]].
  - destruct (starts_with needle (String a s)); [done|].
    split; [|done]. intros H.
    destruct (indexOf_from_range (0 + 1) s needle) as [H1|H1]; lia.
Qed.

Lemma indexOf_namespaced key :
  negb (indexOf key storagePrefix =? 0) = negb (namespaced key).
Proof.
  unfold namespaced. f_equal.
  destruct (starts_with storagePrefix key) eqn:E.
  - apply Z.eqb_eq. by apply indexOf_zero.
  - apply Z.eqb_neq. intros H. apply indexOf_zero in H. congruence.
Qed.

Lemma newStorageKey_namespaced now rnd : namespaced (newStorageKey now rnd) = true.
Proof. apply starts_with_app. Qed.

(** ** The two halves of an [emit] call *)

Section EmitFacts.

Variable rt : Runtime.
Variable JSON_stringify : list MappedEvent.t → string.

Lemma emit_nothing this events now rnd w :
  filteredEvents this events = [] →
  emit rt JSON_stringify this events now rnd w = (w, Resolved (Fulfilled VUndefined)).
Proof. intros H. unfold emit. by rewrite H. Qed.

Lemma emit_something this events now rnd w :
  filteredEvents this events ≠ [] →
  emit rt JSON_stringify this events now rnd w =
    sendToServer rt JSON_stringify this (filteredEvents this events) now rnd w.
Proof.
  intros H. unfold emit.
  destruct (filteredEvents this events); [done|]. reflexivity.
Qed.

Lemma sendToServer_durable this events now rnd w :
  durable this = true →
  sendToServer rt JSON_stringify this events now rnd w =
    (mkWorld (<[newStorageKey now rnd := JSON_stringify (map mapEvent events)]> (localStorage w))
             (trace w ++ [ESetItem (newStorageKey now rnd) (JSON_stringify (map mapEvent events));
                          EFetch (requestFor this (VStr (JSON_stringify (map mapEvent events))))]),
     Awaiting (delivery rt this (VStr (newStorageKey now rnd)))).
Proof.
  intros H. unfold sendToServer, bind. rewrite H.
  cbn [setItem sendRecord fetch bind record ret localStorage trace].
  by rewrite <- app_assoc.
Qed.

Lemma sendToServer_volatile this events now rnd w :
  durable this = false →
  sendToServer rt JSON_stringify this events now rnd w =
    (mkWorld (localStorage w)
             (trace w ++ [EFetch (requestFor this (VStr (JSON_stringify (map mapEvent events))))]),
     Awaiting (delivery rt this VUndefined)).
Proof.
  intros H. unfold sendToServer, bind. by rewrite H.
Qed.

Lemma delivery_fulfilled this key response w :
  key ≠ "" →
  delivery rt this (VStr key) (Fulfilled response) w =
    (mkWorld (delete key (localStorage w)) (trace w ++ [ERemoveItem key]),
     Fulfilled VUndefined).
Proof.
  intros H. unfold delivery, catch_, then_, fetched, bind, ret. simpl.
  destruct (String.eqb_spec key ""); [done|]. reflexivity.
Qed.

Lemma delivery_rejected this storageKey reason w :
  delivery rt this storageKey (Rejected reason) w = onRejected rt this reason w.
Proof. reflexivity. Qed.

End EmitFacts.

(** ** Storage and warnings *)

Lemma pendingBatches_delete key (storage : gmap string string) :
  pendingBatches (delete key storage) = delete key (pendingBatches storage).
Proof. apply map_filter_delete. Qed.

Lemma pendingBatches_insert key value (storage : gmap string string) :
  namespaced key = true →
  pendingBatches (<[key := value]> storage) = <[key := value]> (pendingBatches storage).
Proof. intros H. unfold pendingBatches. by rewrite map_filter_insert_True. Qed.

Lemma warnings_app t1 t2 : warnings (t1 ++ t2) = warnings t1 ++ warnings t2.
Proof. apply omap_app. Qed.

Lemma onRejected_storage rt this reason w :
  localStorage (onRejected rt this reason w).1 = localStorage w.
Proof.
  unfold onRejected, logSuppressedError, bind, ret, record.
  destruct (suppressErrors this), (hasConsoleWarn rt); reflexivity.
Qed.

Lemma onRejected_suppressed rt this reason w :
  suppressErrors this = true →
  onRejected rt this reason w =
    (mkWorld (localStorage w)
       (trace w ++ (if hasConsoleWarn rt
                    then [EWarn ("Suppressed error when logging to Betterstack: "
                                 +:+ js_to_string reason)]
                    else [])),
     Fulfilled VUndefined).
Proof.
  intros H. unfold onRejected, logSuppressedError, bind, ret, record. rewrite H.
  destruct (hasConsoleWarn rt); [reflexivity|].
  rewrite app_nil_r. by destruct w.
Qed.

Lemma onRejected_propagated rt this reason w :
  suppressErrors this = false →
  onRejected rt this reason w = (w, Rejected reason).
Proof. intros H. unfold onRejected. by rewrite H. Qed.

(** ** Durable delivery through [emit] *)

Section Durable.

Variable rt : Runtime.
Variable JSON_stringify : list MappedEvent.t → string.

(** A durable [emit] call with something to send stores the payload and
    posts it, in this order, and hands back the waiting promise. *)
Lemma emit_durable this events now rnd w :
  durable this = true →
  filteredEvents this events ≠ [] →
  emit rt JSON_stringify this events now rnd w =
    (mkWorld
       (<[newStorageKey now rnd :=
            JSON_stringify (map mapEvent (filteredEvents this events))]> (localStorage w))
       (trace w ++
          [ESetItem (newStorageKey now rnd)
                    (JSON_stringify (map mapEvent (filteredEvents this events)));
           EFetch (requestFor this
                    (VStr (JSON_stringify (map mapEvent (filteredEvents this events)))))]),
     Awaiting (delivery rt this (VStr (newStorageKey now rnd)))).
Proof.
  intros Hd Hne. rewrite emit_something by done. by apply sendToServer_durable.
Qed.

Lemma newStorageKey_nonempty now rnd : newStorageKey now rnd ≠ "".
Proof. discriminate. Qed.

(** C1 (amended): in durable mode [emit] stores the payload under a
    newly generated namespaced key before the request goes out; when the
    request is fulfilled, the reaction removes that key before the
    returned promise is fulfilled, and when it is rejected the storage is
    left as it is, so after settlement the key is stored iff the request
    was not fulfilled.  The entries under other keys are untouched, so no
    namespaced key is stored afterwards when none was stored before the
    call. *)
Theorem emit_durable_persist_then_remove this events now rnd w :
  durable this = true →
  filteredEvents this events ≠ [] →
  let key := newStorageKey now rnd in
  let body := JSON_stringify (map mapEvent (filteredEvents this events)) in
  ∃ w1 p,
    emit rt JSON_stringify this events now rnd w = (w1, Awaiting p)
    ∧ namespaced key = true
    ∧ localStorage w1 = <[key := body]> (localStorage w)
    ∧ trace w1 = trace w ++ [ESetItem key body; EFetch (requestFor this (VStr body))]
    ∧ (∀ response w2,
         p (Fulfilled response) w2 =
           (mkWorld (delete key (localStorage w2)) (trace w2 ++ [ERemoveItem key]),
            Fulfilled VUndefined))
    ∧ (∀ reason w2, localStorage (p (Rejected reason) w2).1 = localStorage w2)
    ∧ (∀ response,
         let after :=
           localStorage
             (emitAndSettle rt JSON_stringify this events now rnd (Fulfilled response) w).1 in
         after = delete key (localStorage w)
         ∧ (pendingBatches (localStorage w) = ∅ → pendingBatches after = ∅))
    ∧ (∀ o,
         is_Some (localStorage
                    (emitAndSettle rt JSON_stringify this events now rnd o w).1 !! key)
         ↔ ∃ reason, o = Rejected reason).
Proof.
  intros Hd Hne key body.
  eexists _, _. split; [by apply emit_durable|].
  split; [apply newStorageKey_namespaced|].
  split; [reflexivity|]. split; [reflexivity|].
  split; [intros; apply delivery_fulfilled, newStorageKey_nonempty|].
  split; [intros; rewrite delivery_rejected; apply onRejected_storage|].
  split.
  - intros response after. subst after.
    unfold emitAndSettle, bind. rewrite emit_durable by done.
    cbn [settle]. rewrite delivery_fulfilled by apply newStorageKey_nonempty.
    cbn [fst localStorage]. fold key body. rewrite delete_insert_eq.
    split; [done|]. intros H. by rewrite pendingBatches_delete, H, delete_empty.
  - intros o. unfold emitAndSettle, bind. rewrite emit_durable by done.
    cbn [settle]. destruct o as [response|reason].
    + rewrite delivery_fulfilled by apply newStorageKey_nonempty.
      cbn [fst localStorage]. fold key. rewrite lookup_delete_eq.
      split; [by intros [? ?] | by intros [? ?]].
    + rewrite delivery_rejected, onRejected_storage. cbn [localStorage].
      fold key. rewrite lookup_insert_eq. split; [by eexists | by eexists].
Qed.

(** C2 (amended): a rejected [fetch] is a delivery failure: the persisted
    copy stays and the outcome is the suppression policy's.  A response
    with a non-success status fulfils the [fetch] promise and is handled
    as a success: the copy is removed and the promise is fulfilled. *)
Theorem emit_durable_failure_is_rejection this events now rnd w :
  durable this = true →
  filteredEvents this events ≠ [] →
  let key := newStorageKey now rnd in
  let body := JSON_stringify (map mapEvent (filteredEvents this events)) in
  ∃ w1 p,
    emit rt JSON_stringify this events now rnd w = (w1, Awaiting p)
    ∧ localStorage w1 !! key = Some body
    ∧ (∀ reason w2,
         p (Rejected reason) w2 = onRejected rt this reason w2
         ∧ localStorage (p (Rejected reason) w2).1 = localStorage w2)
    ∧ (∀ reason,
         localStorage
           (emitAndSettle rt JSON_stringify this events now rnd (Rejected reason) w).1
         !! key = Some body)
    ∧ (∀ status w2,
         response_ok status = false →
         p (Fulfilled (VResponse status)) w2 =
           (mkWorld (delete key (localStorage w2)) (trace w2 ++ [ERemoveItem key]),
            Fulfilled VUndefined)).
Proof.
  intros Hd Hne key body.
  eexists _, _. split; [by apply emit_durable|].
  split; [apply lookup_insert_eq|].
  split.
  { intros reason w2. rewrite delivery_rejected. split; [done|].
    apply onRejected_storage. }
  split.
  { intros reason. unfold emitAndSettle, bind. rewrite emit_durable by done.
    cbn [settle]. rewrite delivery_rejected, onRejected_storage.
    apply lookup_insert_eq. }
  intros status w2 _. apply delivery_fulfilled, newStorageKey_nonempty.
Qed.

(** C3 (amended): a durable [emit] call whose request is rejected, with
    suppression on, leaves the storage of before the call with the
    payload added under the generated key, so one namespaced key is
    stored when none was before; the returned promise is fulfilled; and
    the call writes one warning when [console.warn] is there, none
    otherwise. *)
Theorem emit_durable_suppressed_failure this events now rnd reason w :
  durable this = true →
  suppressErrors this = true →
  filteredEvents this events ≠ [] →
  let key := newStorageKey now rnd in
  let body := JSON_stringify (map mapEvent (filteredEvents this events)) in
  let done :=
    emitAndSettle rt JSON_stringify this events now rnd (Rejected reason) w in
  localStorage done.1 = <[key := body]> (localStorage w)
  ∧ pendingBatches (localStorage done.1) = <[key := body]> (pendingBatches (localStorage w))
  ∧ (pendingBatches (localStorage w) = ∅ →
     size (pendingBatches (localStorage done.1)) = 1%nat)
  ∧ done.2 = Fulfilled VUndefined
  ∧ warnings (trace done.1) =
      warnings (trace w) ++
        (if hasConsoleWarn rt
         then ["Suppressed error when logging to Betterstack: " +:+ js_to_string reason]
         else []).
Proof.
  intros Hd Hs Hne key body done.
  assert (Hdone : done =
    (mkWorld (<[key := body]> (localStorage w))
       ((trace w ++ [ESetItem key body; EFetch (requestFor this (VStr body))]) ++
          (if hasConsoleWarn rt
           then [EWarn ("Suppressed error when logging to Betterstack: "
                        +:+ js_to_string reason)]
           else [])),
     Fulfilled VUndefined)).
  { subst done. unfold emitAndSettle, bind. rewrite emit_durable by done.
    cbn [settle]. rewrite delivery_rejected. by rewrite onRejected_suppressed. }
  rewrite Hdone. cbn [fst snd localStorage trace].
  assert (Hp : pendingBatches (<[key := body]> (localStorage w))
               = <[key := body]> (pendingBatches (localStorage w))).
  { apply pendingBatches_insert, newStorageKey_namespaced. }
  split; [done|]. split; [done|].
  split. { intros H. rewrite Hp, H, insert_empty. apply map_size_singleton. }
  split; [done|].
  rewrite !warnings_app. cbn. rewrite app_nil_r.
  by destruct (hasConsoleWarn rt).
Qed.

(** C4 (amended): with [suppressErrors] false, a rejected request (a
    network failure) makes the promise [emit] returned reject with the
    very reason of the rejection, at whatever moment the request settles.
    A response with a non-success status is no failure to the sink: it
    fulfils the request, and the promise is fulfilled. *)
Theorem emit_unsuppressed_failure_rejects this events now rnd reason w :
  suppressErrors this = false →
  filteredEvents this events ≠ [] →
  (emitAndSettle rt JSON_stringify this events now rnd (Rejected reason) w).2
    = Rejected reason
  ∧ (∃ w1 p,
       emit rt JSON_stringify this events now rnd w = (w1, Awaiting p)
       ∧ ∀ w2, p (Rejected reason) w2 = (w2, Rejected reason))
  ∧ ∀ status,
      response_ok status = false →
      (emitAndSettle rt JSON_stringify this events now rnd
         (Fulfilled (VResponse status)) w).2
        = Fulfilled VUndefined.
Proof.
  intros Hs Hne. unfold emitAndSettle, bind.
  rewrite emit_something by done.
  destruct (durable this) eqn:Hd.
  - rewrite sendToServer_durable by done. cbn [settle].
    rewrite delivery_rejected, onRejected_propagated by done.
    split; [done|]. split.
    + eexists _, _. split; [done|].
      intros w2. by rewrite delivery_rejected, onRejected_propagated.
    + intros status _. by rewrite delivery_fulfilled by apply newStorageKey_nonempty.
  - rewrite sendToServer_volatile by done. cbn [settle].
    rewrite delivery_rejected, onRejected_propagated by done.
    split; [done|]. split.
    + eexists _, _. split; [done|].
      intros w2. by rewrite delivery_rejected, onRejected_propagated.
    + by intros status _.
Qed.

End Durable.

(** ** The durable path on concrete inputs *)

Lemma emit_durable_persist_then_remove_witness :
  durable durableSink = true
  ∧ filteredEvents durableSink [infoEvent] ≠ []
  ∧ localStorage
      (emitAndSettle browser messagesOnly durableSink [infoEvent] 17 4
         (Fulfilled (VResponse 202)) emptyWorld).1
    = delete (newStorageKey 17 4) (localStorage emptyWorld).
Proof.
  split; [reflexivity|]. split; [discriminate|].
  destruct (emit_durable_persist_then_remove browser messagesOnly durableSink
              [infoEvent] 17 4 emptyWorld) as (w1 & p & _ & _ & _ & _ & _ & _ & H & _);
    [reflexivity | discriminate |].
  exact (proj1 (H (VResponse 202))).
Defined.

(** C1, as documented, fails: a batch whose request was rejected stays
    stored, and a later call that succeeds removes its own key only. *)
Lemma older_batch_survives_success :
  pendingBatches
    (localStorage
       (emitAndSettle browser messagesOnly durableSink [infoEvent] 18 4
          (Fulfilled (VResponse 202)) worldAfterFailure).1)
  = {[ "structured-log-betterstack-sink-17-5" := "[started]" ]}
  ∧ ¬ noKeysAfterSuccess browser messagesOnly durableSink [infoEvent] 18 4
        (VResponse 202) worldAfterFailure.
Proof.
  split; [by vm_compute|].
  unfold noKeysAfterSuccess. vm_compute. discriminate.
Qed.

Lemma emit_durable_failure_is_rejection_witness :
  durable durableSink = true
  ∧ filteredEvents durableSink [infoEvent] ≠ []
  ∧ localStorage
      (emitAndSettle browser messagesOnly durableSink [infoEvent] 17 4
         (Rejected networkDown) emptyWorld).1
    !! newStorageKey 17 4
    = Some (messagesOnly (map mapEvent (filteredEvents durableSink [infoEvent]))).
Proof.
  split; [reflexivity|]. split; [discriminate|].
  destruct (emit_durable_failure_is_rejection browser messagesOnly durableSink
              [infoEvent] 17 4 emptyWorld) as (w1 & p & _ & _ & _ & H & _);
    [reflexivity | discriminate |].
  exact (H networkDown).
Defined.

(** C2, as documented, fails: a response with status 500 fulfils the
    request promise, so the persisted copy is removed, nothing is warned
    and the returned promise is fulfilled. *)
Lemma server_error_is_not_a_failure :
  emitAndSettle browser messagesOnly durableSink [infoEvent] 17 4
    (Fulfilled (VResponse 500)) emptyWorld
  = (mkWorld ∅
       [ESetItem "structured-log-betterstack-sink-17-5" "[started]";
        EFetch (requestFor durableSink (VStr "[started]"));
        ERemoveItem "structured-log-betterstack-sink-17-5"],
     Fulfilled VUndefined)
  ∧ response_ok 500 = false
  ∧ ¬ handledAsFailure browser messagesOnly durableSink [infoEvent] 17 4
        (Fulfilled (VResponse 500)) emptyWorld.
Proof.
  split; [by vm_compute|]. split; [reflexivity|].
  intros [[v Hv] _]. vm_compute in Hv. discriminate.
Qed.

Lemma emit_durable_suppressed_failure_witness :
  durable durableSink = true
  ∧ suppressErrors durableSink = true
  ∧ filteredEvents durableSink [infoEvent] ≠ []
  ∧ (emitAndSettle browser messagesOnly durableSink [infoEvent] 17 4
       (Rejected networkDown) emptyWorld).2
    = Fulfilled VUndefined.
Proof.
  split; [reflexivity|]. split; [reflexivity|]. split; [discriminate|].
  destruct (emit_durable_suppressed_failure browser messagesOnly durableSink
              [infoEvent] 17 4 networkDown emptyWorld) as (_ & _ & _ & H & _);
    [reflexivity | reflexivity | discriminate |].
  exact H.
Defined.

(** C3, as documented, fails on two counts: after a second rejected call
    two namespaced keys are stored, and in a runtime without [console] no
    warning is written. *)
Lemma second_failure_two_keys_and_silent_runtime :
  size (pendingBatches
          (localStorage
             (emitAndSettle browser messagesOnly durableSink [infoEvent] 18 4
                (Rejected networkDown) worldAfterFailure).1)) = 2%nat
  ∧ ¬ oneKeyOneWarning browser messagesOnly durableSink [infoEvent] 18 4
        networkDown worldAfterFailure
  ∧ warnings
      (trace
         (emitAndSettle silentBrowser messagesOnly durableSink [infoEvent] 17 4
            (Rejected networkDown) emptyWorld).1) = []
  ∧ ¬ oneKeyOneWarning silentBrowser messagesOnly durableSink [infoEvent] 17 4
        networkDown emptyWorld.
Proof.
  split; [by vm_compute|].
  split. { intros [H _]. vm_compute in H. discriminate. }
  split; [by vm_compute|].
  intros (_ & _ & m & H). vm_compute in H. discriminate.
Qed.

Lemma emit_unsuppressed_failure_rejects_witness :
  suppressErrors strictSink = false
  ∧ filteredEvents strictSink [infoEvent] ≠ []
  ∧ (emitAndSettle browser messagesOnly strictSink [infoEvent] 17 4
       (Rejected networkDown) emptyWorld).2
    = Rejected networkDown.
Proof.
  assert (Hne : filteredEvents strictSink [infoEvent] ≠ []) by discriminate.
  split; [reflexivity|]. split; [exact Hne|].
  exact (proj1 (emit_unsuppressed_failure_rejects browser messagesOnly strictSink
                  [infoEvent] 17 4 networkDown emptyWorld eq_refl Hne)).
Defined.

(** C4, as documented, fails: a response with status 500 is a delivery
    failure in the documentation's words, yet with [suppressErrors] false
    the promise [emit] returned is fulfilled, not rejected. *)
Lemma server_error_does_not_reject :
  suppressErrors strictSink = false
  ∧ response_ok 500 = false
  ∧ (emitAndSettle browser messagesOnly strictSink [infoEvent] 17 4
       (Fulfilled (VResponse 500)) emptyWorld).2
    = Fulfilled VUndefined
  ∧ ¬ failureRejects browser messagesOnly strictSink [infoEvent] 17 4
        (Fulfilled (VResponse 500)) emptyWorld.
Proof.
  split; [reflexivity|]. split; [reflexivity|]. split; [by vm_compute|].
  intros [reason H]. vm_compute in H. discriminate.
Qed.

(** ** Translation of one event *)

Lemma levelMapping_lookup (code : Z) :
  levelMapping !! js_to_string (VNum code) = levelTable code.
Proof.
  unfold levelTable, js_to_string.
  destruct (Z.eqb_spec code 0) as [->|H0]; [by vm_compute|].
  destruct (Z.eqb_spec code 1) as [->|H1]; [by vm_compute|].
  destruct (Z.eqb_spec code 3) as [->|H3]; [by vm_compute|].
  destruct (Z.eqb_spec code 7) as [->|H7]; [by vm_compute|].
  destruct (Z.eqb_spec code 15) as [->|H15]; [by vm_compute|].
  destruct (Z.eqb_spec code 31) as [->|H31]; [by vm_compute|].
  destruct (Z.eqb_spec code 63) as [->|H63]; [by vm_compute|].
  assert (Hne : ∀ c : Z, code ≠ c → pretty c ≠ pretty code).
  { intros c Hc E. apply Hc. symmetry. by apply (inj pretty). }
  unfold levelMapping. cbn [list_to_map foldr uncurry].
  rewrite lookup_insert_ne by exact (Hne 0 H0).
  rewrite lookup_insert_ne by exact (Hne 1 H1).
  rewrite lookup_insert_ne by exact (Hne 3 H3).
  rewrite lookup_insert_ne by exact (Hne 7 H7).
  rewrite lookup_insert_ne by exact (Hne 15 H15).
  rewrite lookup_insert_ne by exact (Hne 31 H31).
  rewrite lookup_insert_ne by exact (Hne 63 H63).
  apply lookup_empty.
Qed.

(** C6: the [level] field of the translated record is the table's name
    for the event's level code when the code is one of 0, 1, 3, 7, 15, 31
    and 63, and [undefined] for every other code.  [mapEvent] is a total
    function: an unknown code yields a record like any other. *)
Theorem mapEvent_level (e : LogEvent.t) :
  MappedEvent.level (mapEvent e)
    = from_option VStr VUndefined (levelTable (LogEvent.level e))
  ∧ (∀ name, levelTable (LogEvent.level e) = Some name →
             MappedEvent.level (mapEvent e) = VStr name)
  ∧ (levelTable (LogEvent.level e) = None →
     MappedEvent.level (mapEvent e) = VUndefined).
Proof.
  assert (H : MappedEvent.level (mapEvent e)
              = from_option VStr VUndefined (levelTable (LogEvent.level e))).
  { unfold mapEvent, mapLogLevel. cbn [MappedEvent.level].
    by rewrite levelMapping_lookup. }
  split; [done|]. split.
  - intros name Hn. by rewrite H, Hn.
  - intros Hn. by rewrite H, Hn.
Qed.

Lemma hasStack_true error :
  hasStack error = true ↔
  ∃ err s, error = Some err ∧ instanceofError err = true ∧ stack err = Some s ∧ s ≠ "".
Proof.
  unfold hasStack. destruct error as [[inst [s|]]|]; cbn.
  - rewrite andb_true_iff, negb_true_iff. split.
    + intros [Hi Hs]. exists (mkErrorObject inst (Some s)), s.
      repeat split; [done|]. intros ->. discriminate.
    + intros (err & s' & [= <-] & Hi & [= <-] & Hs). cbn in Hi. split; [done|].
      by destruct (String.eqb_spec s "").
  - rewrite andb_false_r. split; [done|].
    intros (err & s' & [= <-] & _ & Hs & _). discriminate.
  - split; [done|]. intros (err & s' & Hs & _). discriminate.
Qed.

Lemma mapEvent_logtail (e : LogEvent.t) :
  logtail (MappedEvent.syslog (mapEvent e)) =
    if hasStack (LogEvent.error e)
    then {[ "ExceptionDetail" := prop (VStr <$> (LogEvent.error e ≫= stack)) ]}
    else ∅.
Proof.
  unfold mapEvent. cbn [MappedEvent.syslog logtail].
  destruct (hasStack (LogEvent.error e)); [apply insert_empty | done].
Qed.

(** C7: the nested diagnostic object of the translated record has an
    [ExceptionDetail] field exactly when the event's error passes
    [instanceof Error] and its stack is a non-empty string, and the field
    then holds that stack; for an event without error, or whose error has
    an empty or missing stack, the object is empty. *)
Theorem mapEvent_exception_detail (e : LogEvent.t) :
  let diagnostic := logtail (MappedEvent.syslog (mapEvent e)) in
  (is_Some (diagnostic !! "ExceptionDetail") ↔
     ∃ err s, LogEvent.error e = Some err ∧ instanceofError err = true
              ∧ stack err = Some s ∧ s ≠ "")
  ∧ (∀ err s, LogEvent.error e = Some err → instanceofError err = true →
              stack err = Some s → s ≠ "" →
              diagnostic = {[ "ExceptionDetail" := VStr s ]})
  ∧ (LogEvent.error e = None → diagnostic = ∅)
  ∧ (∀ err, LogEvent.error e = Some err →
            stack err = Some "" ∨ stack err = None → diagnostic = ∅).
Proof.
  intros diagnostic. subst diagnostic. rewrite mapEvent_logtail.
  split; [|split; [|split]].
  - rewrite <- hasStack_true. destruct (hasStack (LogEvent.error e)).
    + rewrite lookup_singleton_eq. split; [done | by eexists].
    + rewrite lookup_empty. split; [by intros [? ?] | done].
  - intros err s He Hi Hs Hne.
    assert (Ht : hasStack (LogEvent.error e) = true).
    { apply hasStack_true. by exists err, s. }
    rewrite Ht, He. cbn. by rewrite Hs.
  - intros He. by rewrite He.
  - intros err He Hs.
    destruct (hasStack (LogEvent.error e)) eqn:Ht; [|done].
    apply hasStack_true in Ht as (err' & s & He' & _ & Hs' & Hne).
    rewrite He in He'. injection He' as <-.
    destruct Hs as [Hs|Hs]; rewrite Hs in Hs'; [|discriminate].
    injection Hs' as <-. done.
Qed.

(** C8: [syslog.appname] of the translated record is the value stored
    under [appname] in the event's properties when that key is there, and
    the string "unknown" when it is not. *)
Theorem mapEvent_appname (e : LogEvent.t) :
  appname (MappedEvent.syslog (mapEvent e))
    = match LogEvent.properties e !! "appname" with
      | Some v => v
      | None => VStr "unknown"
      end.
Proof.
  unfold mapEvent, getAppname. cbn [MappedEvent.syslog appname].
  destruct (LogEvent.properties e !! "appname") as [v|] eqn:E.
  - rewrite bool_decide_eq_true_2 by by eexists. done.
  - rewrite bool_decide_eq_false_2; [done|]. by intros [? ?].
Qed.

(** ** Construction *)

Lemma replay_fulfilled rt this storageKey response w :
  replay rt this storageKey (Fulfilled response) w =
    (mkWorld (delete storageKey (localStorage w)) (trace w ++ [ERemoveItem storageKey]),
     Fulfilled VUndefined).
Proof. reflexivity. Qed.

Lemma replay_rejected rt this storageKey reason w :
  replay rt this storageKey (Rejected reason) w = onRejected rt this reason w.
Proof. reflexivity. Qed.

(** The loop, from index [i] on, posts the stored payload of every
    namespaced key and files the waiting promise under that key. *)
Lemma replayFrom_entries rt this n i requests w :
  (i + n)%nat = size (localStorage w) →
  replayFrom rt this n i requests w =
    (mkWorld (localStorage w)
       (trace w ++ map (λ kv, EFetch (requestFor this (VStr kv.2)))
                       (List.filter (λ kv, namespaced kv.1)
                                    (drop i (map_to_list (localStorage w))))),
     foldl (λ acc kv, <[kv.1 := replay rt this kv.1]> acc) requests
           (List.filter (λ kv, namespaced kv.1)
                        (drop i (map_to_list (localStorage w))))).
Proof.
  revert i requests w. induction n as [|n IH]; intros i requests w Hn.
  - rewrite drop_ge by (rewrite length_map_to_list; lia).
    cbn. rewrite app_nil_r. by destruct w.
  - assert (Hi : (i < length (map_to_list (localStorage w)))%nat)
      by (rewrite length_map_to_list; lia).
    destruct (lookup_lt_is_Some_2 _ _ Hi) as [[k v] Hkv].
    cbn [replayFrom]. unfold bind at 1, storageLength at 1.
    rewrite bool_decide_eq_true_2 by lia.
    unfold bind at 1, storageKey_at at 1.
    rewrite list_lookup_fmap, Hkv. cbn [fmap option_fmap option_map fst].
    rewrite (drop_S _ _ _ Hkv). cbn [List.filter fst].
    rewrite indexOf_namespaced.
    destruct (namespaced k) eqn:Hk; cbn [negb].
    + assert (Hv : localStorage w !! k = Some v)
        by by apply elem_of_map_to_list, list_elem_of_lookup_2 with i.
      unfold bind at 1, getItem at 1. rewrite Hv. cbn [from_option].
      unfold bind at 1, sendRecord at 1, bind at 1, fetch, bind, record, ret.
      cbn [fst snd].
      rewrite IH by (cbn [localStorage]; lia).
      cbn [localStorage trace map foldl fst snd]. by rewrite <- app_assoc.
    + by rewrite IH by lia.
Qed.

Lemma constructor_durable rt (options : Options.t) w :
  truthy (Options.token options) = true →
  truthy (prop (Options.durable options)) = true →
  hasLocalStorage rt = true →
  constructor rt (Some options) w =
    (mkWorld (localStorage w)
       (trace w ++ map (λ kv, EFetch (requestFor (configured rt options) (VStr kv.2)))
                       (pendingEntries (localStorage w))),
     inr (configured rt options,
          foldl (λ acc kv, <[kv.1 := replay rt (configured rt options) kv.1]> acc) ∅
                (pendingEntries (localStorage w)))).
Proof.
  intros Ht Hd Hl. unfold constructor. rewrite Ht, Hd, Hl.
  rewrite andb_false_r. cbn [negb].
  unfold bind at 1, ret at 1. unfold bind at 1, storageLength at 1.
  unfold bind at 1. rewrite replayFrom_entries by done.
  unfold configured. rewrite Hd, Hl. reflexivity.
Qed.

Lemma constructor_volatile rt (options : Options.t) w :
  truthy (Options.token options) = true →
  truthy (prop (Options.durable options)) && hasLocalStorage rt = false →
  ∃ w',
    constructor rt (Some options) w = (w', inr (configured rt options, ∅))
    ∧ localStorage w' = localStorage w
    ∧ fetches (trace w') = fetches (trace w).
Proof.
  intros Ht Hd. unfold constructor. rewrite Ht. cbn [negb].
  unfold configured. rewrite Hd.
  destruct (Options.durable options) as [v|]; cbn in Hd |- *.
  - destruct (truthy v); cbn in Hd |- *.
    + rewrite Hd. cbn.
      destruct (hasConsoleWarn rt); cbn; eexists; (split; [reflexivity|]).
      * split; [done|]. cbn. unfold fetches. rewrite omap_app. cbn.
        by rewrite app_nil_r.
      * done.
    + eexists. split; [reflexivity|]. done.
  - eexists. split; [reflexivity|]. done.
Qed.

(** Every sink the constructor yields is the configured one. *)
Lemma constructor_configured rt options w w' this requests :
  constructor rt options w = (w', inr (this, requests)) →
  ∃ opts, options = Some opts
          ∧ truthy (Options.token opts) = true
          ∧ this = configured rt opts.
Proof.
  destruct options as [opts|]; [|discriminate].
  intros H. exists opts. split; [done|].
  destruct (truthy (Options.token opts)) eqn:Ht.
  - split; [done|].
    destruct (truthy (prop (Options.durable opts)) && hasLocalStorage rt) eqn:Hd.
    + apply andb_true_iff in Hd as [Hd Hl].
      rewrite constructor_durable in H by done. congruence.
    + destruct (constructor_volatile rt opts w Ht Hd) as (w0 & Hc & _).
      rewrite Hc in H. congruence.
  - unfold constructor in H. rewrite Ht in H. discriminate.
Qed.

(** A durable instance exists only where [localStorage] does. *)
Lemma constructor_durable_has_storage rt options w w' this requests :
  constructor rt options w = (w', inr (this, requests)) →
  durable this = true → hasLocalStorage rt = true.
Proof.
  intros Hc Hd. apply constructor_configured in Hc as (opts & _ & _ & ->).
  cbn in Hd. by apply andb_true_iff in Hd as [_ ?].
Qed.

Lemma replay_requests_lookup rt this (entries : list (string * string))
    (acc : gmap string Pending) (k : string) :
  foldl (λ acc kv, <[kv.1 := replay rt this kv.1]> acc) acc entries !! k =
    if decide (k ∈ entries.*1) then Some (replay rt this k) else acc !! k.
Proof.
  revert acc. induction entries as [|[k' v'] entries IH]; intros acc; cbn.
  - rewrite decide_False; [done | apply not_elem_of_nil].
  - rewrite IH. destruct (decide (k ∈ entries.*1)) as [Hin|Hin].
    + rewrite decide_True; [done | by right].
    + destruct (decide (k = k')) as [->|Hne].
      * rewrite lookup_insert_eq. rewrite decide_True; [done | by left].
      * rewrite lookup_insert_ne by done.
        rewrite decide_False; [done|]. intros [?|?]%elem_of_cons; done.
Qed.

Lemma elem_of_pendingEntries (storage : gmap string string) k v :
  (k, v) ∈ pendingEntries storage ↔ storage !! k = Some v ∧ namespaced k = true.
Proof.
  unfold pendingEntries.
  rewrite list_elem_of_In, filter_In, <- list_elem_of_In, elem_of_map_to_list. done.
Qed.

Lemma elem_of_pendingEntries_keys (storage : gmap string string) k :
  k ∈ (pendingEntries storage).*1 ↔ is_Some (storage !! k) ∧ namespaced k = true.
Proof.
  rewrite list_elem_of_fmap. split.
  - intros ([k' v] & -> & H). apply elem_of_pendingEntries in H as [H1 H2]. cbn. eauto.
  - intros [[v Hv] Hk]. exists (k, v). split; [done|]. by apply elem_of_pendingEntries.
Qed.

(** ** Settlement of the replayed requests *)

Lemma onRejected_verdict rt this reason w :
  (onRejected rt this reason w).2 = verdict this (Rejected reason).
Proof.
  unfold onRejected, verdict, logSuppressedError, bind, ret, record.
  destruct (suppressErrors this), (hasConsoleWarn rt); reflexivity.
Qed.

Lemma replay_settles rt this storageKey o w :
  (replay rt this storageKey o w).2 = verdict this o
  ∧ localStorage (replay rt this storageKey o w).1 =
      match o with
      | Fulfilled _ => delete storageKey (localStorage w)
      | Rejected _ => localStorage w
      end.
Proof.
  destruct o as [response|reason].
  - by rewrite replay_fulfilled.
  - rewrite replay_rejected. split; [apply onRejected_verdict | apply onRejected_storage].
Qed.

(** Settling the replayed requests in any order and with any outcomes:
    each promise settles by its own request's outcome, and a key leaves
    the storage exactly when its own request is fulfilled. *)
Lemma settleAll_replay rt this (keys : list string) (requests : gmap string Pending)
    (outcomes : list (string * Settled)) (w : World) :
  (∀ k, requests !! k = if decide (k ∈ keys) then Some (replay rt this k) else None) →
  (settleAll requests outcomes w).2 =
    map (λ ko, (ko.1, verdict this ko.2))
        (List.filter (λ ko, bool_decide (ko.1 ∈ keys)) outcomes)
  ∧ ∀ k, localStorage (settleAll requests outcomes w).1 !! k =
         if bool_decide (k ∈ keys) && acknowledged outcomes k
         then None
         else localStorage w !! k.
Proof.
  intros Hreq. revert w.
  induction outcomes as [|[k0 o] outcomes IH]; intros w.
  - split; [done|]. intros k. cbn. by rewrite andb_false_r.
  - cbn [settleAll]. rewrite Hreq. cbn [List.filter fst acknowledged existsb snd].
    destruct (decide (k0 ∈ keys)) as [Hin|Hin].
    + rewrite bool_decide_eq_true_2 by done.
      unfold bind. destruct (replay rt this k0 o w) as [w1 s] eqn:Hr.
      destruct (replay_settles rt this k0 o w) as [Hs Hst]. rewrite Hr in Hs, Hst.
      cbn [fst snd] in Hs, Hst.
      destruct (settleAll requests outcomes w1) as [w2 others] eqn:Ho.
      destruct (IH w1) as [IH1 IH2]. rewrite Ho in IH1, IH2. cbn [fst snd] in IH1, IH2.
      cbn [ret fst snd map]. split; [by rewrite Hs, IH1|].
      intros k. rewrite IH2, Hst. fold (acknowledged outcomes k).
      destruct (bool_decide_reflect (k ∈ keys)) as [Hk|Hk]; cbn [andb].
      2: { destruct o; [|done]. apply lookup_delete_ne. by intros ->. }
      destruct (acknowledged outcomes k); [by rewrite orb_true_r|].
      rewrite orb_false_r. destruct o as [response|reason].
      * rewrite andb_true_r. destruct (decide (k0 = k)) as [->|Hne].
        -- rewrite bool_decide_eq_true_2 by done. apply lookup_delete_eq.
        -- rewrite bool_decide_eq_false_2 by done. by apply lookup_delete_ne.
      * by rewrite andb_false_r.
    + rewrite bool_decide_eq_false_2 by done.
      destruct (IH w) as [IH1 IH2]. split; [done|].
      intros k. rewrite IH2. fold (acknowledged outcomes k).
      destruct (bool_decide_reflect (k ∈ keys)) as [Hk|Hk]; cbn [andb]; [|done].
      rewrite (bool_decide_eq_false_2 (k0 = k)) by (intros ->; done).
      done.
Qed.

(** ** The constructor *)

(** C5: with durability enabled the constructor goes through the whole
    storage, posts the stored payload of every entry whose key starts with
    the prefix and of no other, and files under each such key a promise
    whose completion token is the key: when the request is fulfilled the
    key is removed, when it is rejected the suppression policy decides.
    Each promise settles by the outcome of its own request, whatever the
    order and the outcomes of the others. *)
Theorem constructor_replays_pending rt (options : Options.t) w :
  truthy (Options.token options) = true →
  truthy (prop (Options.durable options)) = true →
  hasLocalStorage rt = true →
  ∃ w' this requests,
    constructor rt (Some options) w = (w', inr (this, requests))
    ∧ durable this = true
    ∧ localStorage w' = localStorage w
    ∧ trace w' = trace w ++ map (λ kv, EFetch (requestFor this (VStr kv.2)))
                                (pendingEntries (localStorage w))
    ∧ (∀ k v, (k, v) ∈ pendingEntries (localStorage w) ↔
              localStorage w !! k = Some v ∧ namespaced k = true)
    ∧ (∀ k, requests !! k =
            if decide (k ∈ (pendingEntries (localStorage w)).*1)
            then Some (replay rt this k) else None)
    ∧ (∀ k response w2,
         replay rt this k (Fulfilled response) w2 =
           (mkWorld (delete k (localStorage w2)) (trace w2 ++ [ERemoveItem k]),
            Fulfilled VUndefined))
    ∧ (∀ k reason w2,
         replay rt this k (Rejected reason) w2 = onRejected rt this reason w2)
    ∧ (∀ outcomes w2,
         (settleAll requests outcomes w2).2 =
           map (λ ko, (ko.1, verdict this ko.2))
               (List.filter
                  (λ ko, bool_decide (ko.1 ∈ (pendingEntries (localStorage w)).*1))
                  outcomes)
         ∧ ∀ k, localStorage (settleAll requests outcomes w2).1 !! k =
                if bool_decide (k ∈ (pendingEntries (localStorage w)).*1)
                   && acknowledged outcomes k
                then None
                else localStorage w2 !! k).
Proof.
  intros Ht Hd Hl. eexists _, _, _.
  split; [by apply constructor_durable|].
  split; [cbn; by rewrite Hd, Hl|].
  split; [done|]. split; [done|].
  split; [apply elem_of_pendingEntries|].
  assert (Hreq : ∀ k,
    foldl (λ acc kv, <[kv.1 := replay rt (configured rt options) kv.1]> acc)
          (∅ : gmap string Pending)
          (pendingEntries (localStorage w)) !! k =
    if decide (k ∈ (pendingEntries (localStorage w)).*1)
    then Some (replay rt (configured rt options) k) else None).
  { intros k. rewrite replay_requests_lookup. by rewrite lookup_empty. }
  split; [done|].
  split; [intros; apply replay_fulfilled|].
  split; [intros; apply replay_rejected|].
  intros outcomes w2. by apply (settleAll_replay rt (configured rt options)).
Qed.

Lemma constructor_replays_pending_witness :
  truthy (Options.token durableOptions) = true
  ∧ truthy (prop (Options.durable durableOptions)) = true
  ∧ hasLocalStorage browser = true
  ∧ ∃ w' this requests,
      constructor browser (Some durableOptions) leftoverWorld = (w', inr (this, requests))
      ∧ durable this = true.
Proof.
  split; [reflexivity|]. split; [reflexivity|]. split; [reflexivity|].
  destruct (constructor_replays_pending browser durableOptions leftoverWorld)
    as (w' & this & requests & H & Hd & _); [reflexivity | reflexivity | reflexivity |].
  exists w', this, requests. by split.
Defined.

(** C9: the constructor computes the setting as
    [options.suppressErrors !== false]: it is off only when the option is
    exactly [false], and on for every other value, among them the falsy
    ones and a missing option. *)
Theorem constructor_suppressErrors rt (options : Options.t) w :
  truthy (Options.token options) = true →
  ∃ w' this requests,
    constructor rt (Some options) w = (w', inr (this, requests))
    ∧ suppressErrors this
        = strict_neq (prop (Options.suppressErrors options)) (VBool false)
    ∧ (suppressErrors this = false ↔ Options.suppressErrors options = Some (VBool false))
    ∧ (∀ v, Options.suppressErrors options = Some v → v ≠ VBool false →
            suppressErrors this = true)
    ∧ (Options.suppressErrors options = None → suppressErrors this = true).
Proof.
  intros Ht.
  assert (Hc : ∃ w' requests,
    constructor rt (Some options) w = (w', inr (configured rt options, requests))).
  { destruct (truthy (prop (Options.durable options)) && hasLocalStorage rt) eqn:Hd.
    - apply andb_true_iff in Hd as [Hd Hl]. eexists _, _. by apply constructor_durable.
    - destruct (constructor_volatile rt options w Ht Hd) as (w' & H & _). eauto. }
  destruct Hc as (w' & requests & Hc). exists w', (configured rt options), requests.
  split; [done|]. cbn [configured suppressErrors]. split; [done|].
  unfold strict_neq, strict_eq. split; [|split].
  - rewrite negb_false_iff, bool_decide_eq_true.
    destruct (Options.suppressErrors options); cbn.
    + split; congruence.
    + split; discriminate.
  - intros v -> Hv. cbn. by rewrite bool_decide_eq_false_2.
  - by intros ->.
Qed.

Lemma constructor_suppressErrors_witness :
  truthy (Options.token plainOptions) = true
  ∧ ∃ w' this requests,
      constructor server (Some plainOptions) emptyWorld = (w', inr (this, requests))
      ∧ suppressErrors this = true.
Proof.
  split; [reflexivity|].
  destruct (constructor_suppressErrors server plainOptions emptyWorld)
    as (w' & this & requests & H & _ & _ & _ & Hn); [reflexivity|].
  exists w', this, requests. split; [exact H | exact (Hn eq_refl)].
Defined.

(** C10: every sink the constructor yields has [levelSwitch] null, and
    the methods only read the instance; so [emit] keeps every event it is
    given: the batch it posts is the translation of the whole input list,
    and the only call that posts nothing is the one with an empty list. *)
Theorem levelSwitch_never_active rt (JSON_stringify : list MappedEvent.t → string)
    options w w' this requests :
  constructor rt options w = (w', inr (this, requests)) →
  levelSwitch this = None
  ∧ ∀ events now rnd w0,
      filteredEvents this events = events
      ∧ (events = [] →
         emit rt JSON_stringify this events now rnd w0
           = (w0, Resolved (Fulfilled VUndefined)))
      ∧ (events ≠ [] →
         ∃ w1 p,
           emit rt JSON_stringify this events now rnd w0 = (w1, Awaiting p)
           ∧ fetches (trace w1) =
               fetches (trace w0)
               ++ [requestFor this (VStr (JSON_stringify (map mapEvent events)))]).
Proof.
  intros Hc. apply constructor_configured in Hc as (opts & -> & Ht & ->).
  split; [done|]. intros events now rnd w0.
  assert (Hf : filteredEvents (configured rt opts) events = events) by done.
  split; [done|]. split.
  - intros ->. by apply emit_nothing.
  - intros Hne. rewrite emit_something by by rewrite Hf.
    rewrite Hf.
    destruct (durable (configured rt opts)) eqn:Hd.
    + rewrite sendToServer_durable by done. eexists _, _. split; [done|].
      cbn [trace]. unfold fetches. by rewrite omap_app.
    + rewrite sendToServer_volatile by done. eexists _, _. split; [done|].
      cbn [trace]. unfold fetches. by rewrite omap_app.
Qed.

Lemma levelSwitch_never_active_witness :
  constructor server (Some plainOptions) emptyWorld
    = (emptyWorld, inr (configured server plainOptions, ∅))
  ∧ filteredEvents (configured server plainOptions) [infoEvent] = [infoEvent].
Proof.
  split; [reflexivity|].
  destruct (levelSwitch_never_active server messagesOnly (Some plainOptions)
              emptyWorld emptyWorld (configured server plainOptions) ∅ eq_refl)
    as [_ H].
  exact (proj1 (H [infoEvent] 17 4 emptyWorld)).
Defined.

(** ** Keys of distinct batches *)

Lemma append_inj_r (p a b : string) : p +:+ a = p +:+ b → a = b.
Proof. induction p as [|c p IH]; cbn; [done|]. intros [= H]. by apply IH. Qed.

Lemma starts_with_split p s :
  starts_with p s = true ↔ ∃ rest, s = p +:+ rest.
Proof.
  revert s. induction p as [|a p IH]; intros s; cbn.
  - split; [by exists s | done].
  - destruct s as [|b s].
    + split; [done | by intros [rest ?]].
    + destruct (Ascii.eqb_spec a b) as [->|Hne].
      * rewrite IH. split; intros [rest H]; exists rest.
        -- by rewrite H.
        -- by injection H.
      * split; [done|]. intros [rest [= ? ?]]. done.
Qed.

Lemma dashFree_pretty_N_go (x : N) (s : string) :
  dashFree s = true → dashFree (pretty_N_go x s) = true.
Proof.
  revert s. induction (N.lt_wf_0 x) as [x _ IH]; intros s Hs.
  destruct (decide (0 < x)%N) as [Hx|Hx].
  - rewrite pretty_N_go_step by done. apply IH.
    + apply N.div_lt; lia.
    + cbn. rewrite Hs, andb_true_r. unfold pretty_N_char.
      by repeat case_match.
  - assert (x = 0%N) as -> by lia. by rewrite pretty_N_go_0.
Qed.

Lemma dashFree_pretty_N (x : N) : dashFree (pretty x) = true.
Proof.
  unfold pretty, pretty_N. case_decide; [done|]. by apply dashFree_pretty_N_go.
Qed.

Lemma pretty_N_go_length (x : N) (s : string) :
  (String.length s ≤ String.length (pretty_N_go x s))%nat.
Proof.
  revert s. induction (N.lt_wf_0 x) as [x _ IH]; intros s.
  destruct (decide (0 < x)%N) as [Hx|Hx].
  - rewrite pretty_N_go_step by done.
    etrans; [|apply IH; apply N.div_lt; lia]. cbn. lia.
  - assert (x = 0%N) as -> by lia. by rewrite pretty_N_go_0.
Qed.

Lemma pretty_N_nonempty (x : N) : pretty x ≠ "".
Proof.
  unfold pretty, pretty_N. case_decide; [done|].
  rewrite pretty_N_go_step by lia. intros Heq.
  pose proof (pretty_N_go_length (x `div` 10) (String (pretty_N_char (x `mod` 10)) "")) as Hl.
  rewrite Heq in Hl. cbn in Hl. lia.
Qed.

(** The decimal rendering of an integer: an optional dash, then a
    non-empty string without dash. *)
Lemma pretty_Z_shape (z : Z) :
  ∃ body, dashFree body = true ∧ body ≠ ""
          ∧ (pretty z = body ∨ pretty z = "-" +:+ body).
Proof.
  destruct z as [|p|p].
  - exists "0". by repeat split; [|left].
  - exists (pretty (Npos p)). split; [apply dashFree_pretty_N|].
    split; [apply pretty_N_nonempty | by left].
  - exists (pretty (Npos p)). split; [apply dashFree_pretty_N|].
    split; [apply pretty_N_nonempty | by right].
Qed.

Lemma dashFree_split (x y u v : string) :
  dashFree x = true → dashFree y = true →
  x +:+ "-" +:+ u = y +:+ "-" +:+ v → x = y ∧ u = v.
Proof.
  revert y. induction x as [|c x IH]; intros [|d y] Hx Hy H.
  - injection H as H. change (u = v) in H. done.
  - injection H as Hd _. cbn in Hy. rewrite <- Hd in Hy. done.
  - injection H as Hc _. cbn in Hx. rewrite Hc in Hx. done.
  - injection H as -> H. cbn in Hx, Hy.
    apply andb_true_iff in Hx as [_ Hx]. apply andb_true_iff in Hy as [_ Hy].
    destruct (IH y Hx Hy H) as [-> ->]. done.
Qed.

Lemma signed_split (a1 a2 : Z) (u v : string) :
  pretty a1 +:+ "-" +:+ u = pretty a2 +:+ "-" +:+ v → a1 = a2 ∧ u = v.
Proof.
  intros H.
  destruct (pretty_Z_shape a1) as (b1 & Hd1 & Hn1 & E1).
  destruct (pretty_Z_shape a2) as (b2 & Hd2 & Hn2 & E2).
  assert (Hhead : ∀ b rest rest', dashFree b = true → b ≠ "" →
            b +:+ rest ≠ ("-" +:+ rest')).
  { intros [|c b] rest rest' Hb Hne E; [done|].
    injection E as Hc _. cbn in Hb. rewrite Hc in Hb. done. }
  destruct E1 as [E1|E1], E2 as [E2|E2].
  - assert (Hb : b1 = b2 ∧ u = v).
    { apply dashFree_split; [done..|]. by rewrite <- E1, <- E2. }
    destruct Hb as [Hb ->]. split; [|done].
    apply (inj pretty). by rewrite E1, E2.
  - rewrite E1, E2 in H. by apply Hhead in H.
  - rewrite E1, E2 in H. symmetry in H. by apply Hhead in H.
  - assert (Hb : b1 = b2 ∧ u = v).
    { apply dashFree_split; [done..|]. rewrite E1, E2 in H.
      injection H as H. exact H. }
    destruct Hb as [Hb ->]. split; [|done].
    apply (inj pretty). by rewrite E1, E2, Hb.
Qed.

Lemma newStorageKey_inj (now1 rnd1 now2 rnd2 : Z) :
  newStorageKey now1 rnd1 = newStorageKey now2 rnd2 → now1 = now2 ∧ rnd1 = rnd2.
Proof.
  unfold newStorageKey, js_to_string. intros H.
  apply append_inj_r in H. injection H as H.
  apply signed_split in H as [-> H]. split; [done|].
  apply (inj pretty) in H. lia.
Qed.

(** X6: two batches whose clock reading or random draw differ get
    different storage keys, whatever the readings are; so the second
    never overwrites the stored copy of the first. *)
Theorem newStorageKey_distinct (now1 rnd1 now2 rnd2 : Z) :
  now1 ≠ now2 ∨ rnd1 ≠ rnd2 →
  newStorageKey now1 rnd1 ≠ newStorageKey now2 rnd2.
Proof.
  intros Hne H. apply newStorageKey_inj in H as [? ?]. destruct Hne; done.
Qed.

Lemma newStorageKey_distinct_witness :
  (1714557600000 ≠ 1714557600000 ∨ 41 ≠ 42)
  ∧ newStorageKey 1714557600000 41 ≠ newStorageKey 1714557600000 42.
Proof.
  assert (H : 1714557600000 ≠ 1714557600000 ∨ 41 ≠ 42) by (right; discriminate).
  split; [exact H|].
  exact (newStorageKey_distinct 1714557600000 41 1714557600000 42 H).
Defined.

(** X5: the test [storageKey.indexOf(prefix) !== 0] of the replay loop
    lets through exactly the keys that are the prefix followed by
    anything, a key of another tool that merely starts with the same
    characters included; every key [sendToServer] generates passes it. *)
Theorem replay_prefix_test (storageKey : string) :
  (negb (indexOf storageKey storagePrefix =? 0) = false
   ↔ ∃ rest, storageKey = storagePrefix +:+ rest)
  ∧ ∀ now rnd, negb (indexOf (newStorageKey now rnd) storagePrefix =? 0) = false.
Proof.
  split.
  - rewrite indexOf_namespaced, negb_false_iff. apply starts_with_split.
  - intros now rnd. by rewrite indexOf_namespaced, newStorageKey_namespaced.
Qed.

(** ** More about the constructor *)

Lemma fetches_app t1 t2 : fetches (t1 ++ t2) = fetches t1 ++ fetches t2.
Proof. apply omap_app. Qed.

Lemma fetches_posted {A} (f : A → Request) (l : list A) :
  fetches (map (λ x, EFetch (f x)) l) = map f l.
Proof. induction l as [|x l IH]; cbn; [done|]. by rewrite <- IH. Qed.

Lemma warnings_posted {A} (f : A → Request) (l : list A) :
  warnings (map (λ x, EFetch (f x)) l) = [].
Proof. induction l as [|x l IH]; cbn; done. Qed.

Lemma pendingEntries_filter (storage : gmap string string) :
  pendingEntries storage = filter (λ kv, namespaced kv.1 = true) (map_to_list storage).
Proof.
  unfold pendingEntries. induction (map_to_list storage) as [|kv l IH]; [done|].
  cbn [List.filter]. rewrite filter_cons, IH.
  destruct (namespaced kv.1) eqn:E.
  - by rewrite decide_True.
  - by rewrite decide_False.
Qed.

Lemma NoDup_pendingEntries (storage : gmap string string) :
  NoDup (pendingEntries storage).*1.
Proof.
  rewrite pendingEntries_filter.
  apply (sublist_NoDup _ (map_to_list storage).*1); [apply NoDup_fst_map_to_list|].
  apply fmap_sublist, sublist_filter.
Qed.

Lemma pendingEntries_size (storage : gmap string string) :
  length (pendingEntries storage) = size (pendingBatches storage).
Proof.
  unfold pendingBatches. rewrite map_filter_alt, <- pendingEntries_filter.
  symmetry. apply map_size_list_to_map, NoDup_pendingEntries.
Qed.

(** The constructor's outcome when the instance is not durable, with the
    world it leaves. *)
Lemma constructor_volatile_world rt (options : Options.t) w :
  truthy (Options.token options) = true →
  truthy (prop (Options.durable options)) && hasLocalStorage rt = false →
  constructor rt (Some options) w =
    (mkWorld (localStorage w)
       (trace w ++ if truthy (prop (Options.durable options)) && hasConsoleWarn rt
                   then [EWarn downgradeWarning] else []),
     inr (configured rt options, ∅)).
Proof.
  intros Ht Hd. unfold constructor. rewrite Ht. cbn [negb].
  unfold configured. rewrite Hd.
  assert (Hw : mkWorld (localStorage w) (trace w ++ []) = w)
    by (rewrite app_nil_r; by destruct w).
  destruct (Options.durable options) as [v|]; cbn in Hd |- *.
  - destruct (truthy v); cbn in Hd |- *.
    + rewrite Hd. cbn. destruct (hasConsoleWarn rt); cbn; [done|]. by rewrite Hw.
    + by rewrite Hw.
  - by rewrite Hw.
Qed.

(** X1: the constructor throws exactly when the options are missing or
    the token is falsy (missing, empty, ...), with the message that names
    what is missing, and it has then done nothing: no warning, no request,
    whatever the other options ask for.  In every other case it yields an
    instance. *)
Theorem constructor_rejects_bad_options rt (options : option Options.t) w :
  match options with
  | None => constructor rt options w = (w, inl "'options' parameter is required.")
  | Some opts =>
    if truthy (Options.token opts)
    then ∃ w' requests,
           constructor rt options w = (w', inr (configured rt opts, requests))
    else constructor rt options w
           = (w, inl "'options.token' parameter is required.")
  end.
Proof.
  destruct options as [opts|]; [|done].
  destruct (truthy (Options.token opts)) eqn:Ht.
  - destruct (truthy (prop (Options.durable opts)) && hasLocalStorage rt) eqn:Hd.
    + apply andb_true_iff in Hd as [Hd Hl]. eexists _, _. by apply constructor_durable.
    + eexists _, _. by apply constructor_volatile_world.
  - unfold constructor. by rewrite Ht.
Qed.

(** X2: the instance posts to [options.ingestionUri] when that is a
    non-empty string and to the default address for anything else (no
    such option, the empty string, a value that is not a string); the
    address is never empty. *)
Theorem constructor_ingestionAddress rt (options : Options.t) w w' this requests :
  constructor rt (Some options) w = (w', inr (this, requests)) →
  (∀ uri, Options.ingestionUri options = Some (VStr uri) → uri ≠ "" →
          ingestionAddress this = uri)
  ∧ ((∀ uri, Options.ingestionUri options = Some (VStr uri) → uri = "") →
     ingestionAddress this = defaultIngestionAddress)
  ∧ ingestionAddress this ≠ "".
Proof.
  intros Hc. apply constructor_configured in Hc as (opts & [= <-] & _ & ->).
  cbn [configured ingestionAddress]. split; [|split].
  - intros uri -> Hne. cbn. by destruct (String.eqb_spec uri "").
  - intros H. destruct (Options.ingestionUri options) as [[| |b|z|s|n m|st]|];
      cbn; rewrite ?andb_false_r; try done.
    by rewrite (H s eq_refl).
  - destruct (Options.ingestionUri options) as [[| |b|z|s|n m|st]|];
      cbn; rewrite ?andb_false_r; try done.
    rewrite andb_true_r. by destruct (String.eqb_spec s "").
Qed.

Lemma constructor_ingestionAddress_witness :
  constructor server (Some customOptions) emptyWorld
  = (emptyWorld, inr (configured server customOptions, ∅))
  ∧ ingestionAddress (configured server customOptions) = "https://logs.example.test".
Proof.
  split; [reflexivity|].
  refine (proj1 (constructor_ingestionAddress server customOptions emptyWorld emptyWorld
                   (configured server customOptions) ∅ eq_refl)
            "https://logs.example.test" eq_refl _).
  discriminate.
Defined.

(** X3: an instance is durable only when durability is asked for and
    [localStorage] exists.  Otherwise the constructor posts nothing and
    files no promise, whatever the storage holds; it warns, once, only
    when durability was asked for and [console.warn] exists. *)
Theorem constructor_without_durability rt (options : Options.t) w :
  truthy (Options.token options) = true →
  truthy (prop (Options.durable options)) && hasLocalStorage rt = false →
  constructor rt (Some options) w =
    (mkWorld (localStorage w)
       (trace w ++ if truthy (prop (Options.durable options)) && hasConsoleWarn rt
                   then [EWarn downgradeWarning] else []),
     inr (configured rt options, ∅))
  ∧ durable (configured rt options) = false.
Proof.
  intros Ht Hd. split; [by apply constructor_volatile_world | done].
Qed.

Lemma constructor_without_durability_witness :
  truthy (Options.token durableOptions) = true
  ∧ truthy (prop (Options.durable durableOptions)) && hasLocalStorage server = false
  ∧ constructor server (Some durableOptions) leftoverWorld
    = (mkWorld (localStorage leftoverWorld) [EWarn downgradeWarning],
       inr (configured server durableOptions, ∅)).
Proof.
  split; [reflexivity|]. split; [reflexivity|].
  exact (proj1 (constructor_without_durability server durableOptions leftoverWorld
                  eq_refl eq_refl)).
Defined.

(** X4: a durable constructor posts one request for each stored batch,
    carrying that batch's payload, and none besides; it files a promise
    under each of those keys and no other, and itself neither writes to
    the storage nor warns. *)
Theorem constructor_one_request_per_batch rt (options : Options.t) w :
  truthy (Options.token options) = true →
  truthy (prop (Options.durable options)) = true →
  hasLocalStorage rt = true →
  ∃ w' this requests posted,
    constructor rt (Some options) w = (w', inr (this, requests))
    ∧ fetches (trace w') = fetches (trace w) ++ posted
    ∧ length posted = size (pendingBatches (localStorage w))
    ∧ (∀ r, r ∈ posted ↔
            ∃ k v, pendingBatches (localStorage w) !! k = Some v
                   ∧ r = requestFor this (VStr v))
    ∧ dom requests = dom (pendingBatches (localStorage w))
    ∧ warnings (trace w') = warnings (trace w)
    ∧ storageWrites (trace w') = storageWrites (trace w)
    ∧ localStorage w' = localStorage w.
Proof.
  intros Ht Hd Hl.
  exists (mkWorld (localStorage w)
            (trace w ++ map (λ kv, EFetch (requestFor (configured rt options) (VStr kv.2)))
                            (pendingEntries (localStorage w)))),
         (configured rt options),
         (foldl (λ acc kv, <[kv.1 := replay rt (configured rt options) kv.1]> acc) ∅
                (pendingEntries (localStorage w))),
         (map (λ kv, requestFor (configured rt options) (VStr kv.2))
              (pendingEntries (localStorage w))).
  split; [by apply constructor_durable|]. cbn [trace localStorage].
  split; [by rewrite fetches_app, fetches_posted|].
  split; [by rewrite length_map, pendingEntries_size|].
  split.
  { intros r. rewrite list_elem_of_fmap. split.
    - intros ([k v] & -> & Hin). apply elem_of_pendingEntries in Hin as [Hv Hk].
      exists k, v. split; [|done]. by apply map_lookup_filter_Some.
    - intros (k & v & Hkv & ->). apply map_lookup_filter_Some in Hkv as [Hv Hk].
      exists (k, v). split; [done|]. by apply elem_of_pendingEntries. }
  split.
  { apply set_eq. intros k. rewrite !elem_of_dom, replay_requests_lookup, lookup_empty.
    destruct (decide (k ∈ (pendingEntries (localStorage w)).*1)) as [Hin|Hin].
    - split; [|by eexists]. intros _.
      apply elem_of_pendingEntries_keys in Hin as [[v Hv] Hk].
      exists v. by apply map_lookup_filter_Some.
    - split; [by intros [? ?]|]. intros [v Hkv].
      apply map_lookup_filter_Some in Hkv as [Hv Hk].
      destruct Hin. apply elem_of_pendingEntries_keys. eauto. }
  split; [by rewrite warnings_app, warnings_posted, app_nil_r|].
  split; [|done].
  unfold storageWrites. rewrite List.filter_app.
  rewrite <- (app_nil_r (List.filter _ (trace w))) at 2. f_equal.
  induction (pendingEntries (localStorage w)) as [|kv l IH]; [done | exact IH].
Qed.

Lemma constructor_one_request_per_batch_witness :
  truthy (Options.token durableOptions) = true
  ∧ truthy (prop (Options.durable durableOptions)) = true
  ∧ hasLocalStorage browser = true
  ∧ ∃ w', length (fetches (trace w')) = 2%nat
          ∧ (constructor browser (Some durableOptions) leftoverWorld).1 = w'.
Proof.
  split; [reflexivity|]. split; [reflexivity|]. split; [reflexivity|].
  destruct (constructor_one_request_per_batch browser durableOptions leftoverWorld)
    as (w' & this & requests & posted & Hc & Hf & Hlen & _);
    [reflexivity | reflexivity | reflexivity |].
  exists w'. split; [|by rewrite Hc].
  rewrite Hf, length_app, Hlen. by vm_compute.
Defined.

(** ** More about [emit] *)

Lemma delivery_unkeyed_fulfilled rt this response w :
  delivery rt this VUndefined (Fulfilled response) w = (w, Fulfilled VUndefined).
Proof. reflexivity. Qed.

(** What the suppression policy leaves in the trace. *)
Lemma onRejected_trace rt this reason w :
  trace (onRejected rt this reason w).1 =
    trace w ++ if suppressErrors this && hasConsoleWarn rt
               then [EWarn (suppressedWarning reason)] else [].
Proof.
  unfold onRejected, logSuppressedError, bind, ret, record.
  destruct (suppressErrors this), (hasConsoleWarn rt); cbn; by rewrite ?app_nil_r.
Qed.

(** Both halves of an [emit] call in one equation: what the call does at
    once, and what its promise does when the request settles. *)
Lemma emit_cases rt (JSON_stringify : list MappedEvent.t → string) this events now rnd w :
  emit rt JSON_stringify this events now rnd w =
    match filteredEvents this events with
    | [] => (w, Resolved (Fulfilled VUndefined))
    | _ :: _ =>
      let body := JSON_stringify (map mapEvent (filteredEvents this events)) in
      if durable this
      then (mkWorld (<[newStorageKey now rnd := body]> (localStorage w))
                    (trace w ++ [ESetItem (newStorageKey now rnd) body;
                                 EFetch (requestFor this (VStr body))]),
            Awaiting (delivery rt this (VStr (newStorageKey now rnd))))
      else (mkWorld (localStorage w) (trace w ++ [EFetch (requestFor this (VStr body))]),
            Awaiting (delivery rt this VUndefined))
    end.
Proof.
  destruct (filteredEvents this events) as [|e evs] eqn:Hf.
  - by apply emit_nothing.
  - rewrite emit_something by by rewrite Hf. rewrite Hf. cbn zeta.
    destruct (durable this) eqn:Hd.
    + by apply sendToServer_durable.
    + by apply sendToServer_volatile.
Qed.

Lemma delivery_cases rt this (storageKey : JsValue) o w :
  delivery rt this storageKey o w =
    match o with
    | Fulfilled _ =>
      if truthy storageKey
      then (mkWorld (delete (js_to_string storageKey) (localStorage w))
                    (trace w ++ [ERemoveItem (js_to_string storageKey)]),
            Fulfilled VUndefined)
      else (w, Fulfilled VUndefined)
    | Rejected reason => onRejected rt this reason w
    end.
Proof.
  destruct o as [response|reason]; [|done].
  unfold delivery, catch_, then_, fetched, bind, ret. cbn.
  by destruct (truthy storageKey).
Qed.

Lemma emitAndSettle_settle rt (JSON_stringify : list MappedEvent.t → string)
    this events now rnd o w :
  emitAndSettle rt JSON_stringify this events now rnd o w =
    settle (emit rt JSON_stringify this events now rnd w).2 o
           (emit rt JSON_stringify this events now rnd w).1.
Proof.
  unfold emitAndSettle, bind.
  by destruct (emit rt JSON_stringify this events now rnd w).
Qed.

(** X7: whenever its request settles, the promise [emit] returned
    settles by the suppression policy alone: fulfilled with [undefined]
    when the request is fulfilled, whatever the response, or when nothing
    was to be sent; on a rejection, fulfilled with suppression on and
    rejected with the same reason with suppression off.  With suppression
    on the caller never sees a rejection. *)
Theorem emit_settles_by_policy rt (JSON_stringify : list MappedEvent.t → string)
    this events now rnd o w :
  (∀ w2,
     (settle (emit rt JSON_stringify this events now rnd w).2 o w2).2 =
       match filteredEvents this events with
       | [] => Fulfilled VUndefined
       | _ :: _ => verdict this o
       end)
  ∧ (suppressErrors this = true →
     (emitAndSettle rt JSON_stringify this events now rnd o w).2 = Fulfilled VUndefined).
Proof.
  assert (H : ∀ w2,
     (settle (emit rt JSON_stringify this events now rnd w).2 o w2).2 =
       match filteredEvents this events with
       | [] => Fulfilled VUndefined
       | _ :: _ => verdict this o
       end).
  { intros w2. rewrite emit_cases.
    destruct (filteredEvents this events) as [|e evs]; [done|]. cbn zeta.
    destruct (durable this); cbn [snd settle]; rewrite delivery_cases;
      (destruct o as [response|reason]; [done | apply onRejected_verdict]). }
  split; [exact H|]. intros Hs. rewrite emitAndSettle_settle, H.
  destruct (filteredEvents this events); [done|].
  unfold verdict. rewrite Hs. by destruct o.
Qed.

(** X8: an instance that is not durable never touches the storage:
    neither the call nor the settlement of its request, whatever the
    outcome, writes or removes an entry. *)
Theorem emit_volatile_leaves_storage rt (JSON_stringify : list MappedEvent.t → string)
    this events now rnd w :
  durable this = false →
  localStorage (emit rt JSON_stringify this events now rnd w).1 = localStorage w
  ∧ storageWrites (trace (emit rt JSON_stringify this events now rnd w).1)
    = storageWrites (trace w)
  ∧ ∀ o w2,
      localStorage (settle (emit rt JSON_stringify this events now rnd w).2 o w2).1
        = localStorage w2
      ∧ storageWrites
          (trace (settle (emit rt JSON_stringify this events now rnd w).2 o w2).1)
        = storageWrites (trace w2).
Proof.
  intros Hd. rewrite emit_cases, Hd.
  destruct (filteredEvents this events) as [|e evs]; [done|]. cbn zeta.
  cbn [fst snd localStorage trace settle].
  split; [done|]. unfold storageWrites.
  split; [rewrite List.filter_app; cbn; by rewrite app_nil_r|].
  intros o w2. rewrite delivery_cases.
  destruct o as [response|reason]; [done|].
  rewrite onRejected_storage, onRejected_trace. split; [done|].
  rewrite List.filter_app.
  destruct (suppressErrors this && hasConsoleWarn rt); cbn; by rewrite app_nil_r.
Qed.

Lemma emit_volatile_leaves_storage_witness :
  durable (configured server durableOptions) = false
  ∧ localStorage
      (emit server messagesOnly (configured server durableOptions) [infoEvent] 17 4
         leftoverWorld).1
    = localStorage leftoverWorld.
Proof.
  split; [reflexivity|].
  exact (proj1 (emit_volatile_leaves_storage server messagesOnly
                  (configured server durableOptions) [infoEvent] 17 4 leftoverWorld
                  eq_refl)).
Defined.


(** X10: an [emit] call with something to send posts one request at
    once: a POST to the instance's address with the bearer token and the
    JSON content type, whose body is the serialized translation of the
    events kept; a call with nothing to send does nothing at all.  The
    settlement of the request never posts again, whatever the outcome:
    there is no retry inside a call. *)
Theorem emit_posts_one_request rt (JSON_stringify : list MappedEvent.t → string)
    this events now rnd w :
  fetches (trace (emit rt JSON_stringify this events now rnd w).1) =
    fetches (trace w) ++
      match filteredEvents this events with
      | [] => []
      | kept =>
        [ {| req_url := ingestionAddress this;
             req_method := "POST";
             req_authorization := "Bearer " +:+ js_to_string (token this);
             req_content_type := "application/json";
             req_body := VStr (JSON_stringify (map mapEvent kept)) |} ]
      end
  ∧ (filteredEvents this events = [] →
     emit rt JSON_stringify this events now rnd w = (w, Resolved (Fulfilled VUndefined)))
  ∧ ∀ o w2,
      fetches (trace (settle (emit rt JSON_stringify this events now rnd w).2 o w2).1)
        = fetches (trace w2).
Proof.
  rewrite emit_cases.
  destruct (filteredEvents this events) as [|e evs].
  { split; [by rewrite app_nil_r|]. split; [done|]. by intros o w2. }
  cbn zeta.
  assert (Hsettle : ∀ sk o w2,
    fetches (trace (delivery rt this sk o w2).1) = fetches (trace w2)).
  { intros sk o w2. rewrite delivery_cases. destruct o as [response|reason].
    - destruct (truthy sk); cbn [fst trace]; rewrite ?fetches_app; cbn;
        by rewrite ?app_nil_r.
    - rewrite onRejected_trace, fetches_app.
      destruct (suppressErrors this && hasConsoleWarn rt); cbn; by rewrite app_nil_r. }
  destruct (durable this); cbn [fst snd trace settle];
    (split; [by rewrite fetches_app|]); (split; [done|]);
    intros o w2; apply Hsettle.
Qed.

(** ** Batches across calls and instances *)

Lemma delivery_storage rt this now rnd o w :
  localStorage (delivery rt this (VStr (newStorageKey now rnd)) o w).1 =
    match o with
    | Fulfilled _ => delete (newStorageKey now rnd) (localStorage w)
    | Rejected _ => localStorage w
    end.
Proof.
  rewrite delivery_cases. destruct o as [response|reason]; [done|].
  apply onRejected_storage.
Qed.

Lemma emit_durable_failure_storage rt (JSON_stringify : list MappedEvent.t → string)
    this events now rnd reason w :
  durable this = true →
  filteredEvents this events ≠ [] →
  localStorage
    (emitAndSettle rt JSON_stringify this events now rnd (Rejected reason) w).1
  = <[newStorageKey now rnd :=
        JSON_stringify (map mapEvent (filteredEvents this events))]> (localStorage w).
Proof.
  intros Hd Hne. unfold emitAndSettle, bind. rewrite emit_durable by done.
  cbn [settle]. by rewrite delivery_rejected, onRejected_storage.
Qed.

(** X11: a batch whose request was rejected is sent again by the next
    durable instance constructed on the same storage: the constructor
    posts the very payload that was stored and files its promise under
    the batch's key; when that request is fulfilled the key is removed,
    and the storage is back to what it was before the batch. *)
Theorem failed_batch_is_replayed rt (JSON_stringify : list MappedEvent.t → string)
    this events now rnd reason (options : Options.t) w :
  durable this = true →
  filteredEvents this events ≠ [] →
  truthy (Options.token options) = true →
  truthy (prop (Options.durable options)) = true →
  hasLocalStorage rt = true →
  let key := newStorageKey now rnd in
  let body := JSON_stringify (map mapEvent (filteredEvents this events)) in
  let w1 := (emitAndSettle rt JSON_stringify this events now rnd (Rejected reason) w).1 in
  ∃ w2 next requests,
    constructor rt (Some options) w1 = (w2, inr (next, requests))
    ∧ requestFor next (VStr body)
        ∈ drop (length (fetches (trace w1))) (fetches (trace w2))
    ∧ requests !! key = Some (replay rt next key)
    ∧ ∀ response,
        localStorage (replay rt next key (Fulfilled response) w2).1
          = delete key (localStorage w)
        ∧ (localStorage w !! key = None →
           localStorage (replay rt next key (Fulfilled response) w2).1 = localStorage w).
Proof.
  intros Hd Hne Ht Ho Hl key body w1.
  assert (Hw1 : localStorage w1 = <[key := body]> (localStorage w))
    by by apply emit_durable_failure_storage.
  assert (Hin : (key, body) ∈ pendingEntries (localStorage w1)).
  { apply elem_of_pendingEntries. rewrite Hw1, lookup_insert_eq.
    split; [done | apply newStorageKey_namespaced]. }
  eexists _, _, _. split; [by apply constructor_durable|].
  cbn [trace localStorage]. split; [|split].
  - rewrite fetches_app, drop_app_length, fetches_posted.
    apply list_elem_of_fmap. by exists (key, body).
  - rewrite replay_requests_lookup. rewrite decide_True; [done|].
    apply list_elem_of_fmap. by exists (key, body).
  - intros response. rewrite replay_fulfilled. cbn [fst localStorage].
    rewrite Hw1, delete_insert_eq. split; [done|]. apply delete_id.
Qed.

Lemma failed_batch_is_replayed_witness :
  durable durableSink = true
  ∧ filteredEvents durableSink [infoEvent] ≠ []
  ∧ truthy (Options.token durableOptions) = true
  ∧ truthy (prop (Options.durable durableOptions)) = true
  ∧ hasLocalStorage browser = true
  ∧ ∃ w2 next requests,
      constructor browser (Some durableOptions) worldAfterFailure
        = (w2, inr (next, requests))
      ∧ requests !! newStorageKey 17 4 = Some (replay browser next (newStorageKey 17 4)).
Proof.
  split; [reflexivity|]. split; [discriminate|].
  split; [reflexivity|]. split; [reflexivity|]. split; [reflexivity|].
  destruct (failed_batch_is_replayed browser messagesOnly durableSink [infoEvent] 17 4
              networkDown durableOptions emptyWorld)
    as (w2 & next & requests & Hc & _ & Hr & _);
    [reflexivity | discriminate | reflexivity | reflexivity | reflexivity |].
  exists w2, next, requests. by split.
Defined.

(** X12: two durable batches in flight at once do not disturb each
    other.  When their clock reading or random draw differ, each key is
    stored after both requests have settled exactly when its own request
    was rejected, every other entry is as before the two calls, and the
    storage is the same whichever request settles first. *)
Theorem concurrent_batches_independent rt (JSON_stringify : list MappedEvent.t → string)
    this events1 events2 now1 rnd1 now2 rnd2 o1 o2 w :
  durable this = true →
  filteredEvents this events1 ≠ [] →
  filteredEvents this events2 ≠ [] →
  now1 ≠ now2 ∨ rnd1 ≠ rnd2 →
  let call1 := emit rt JSON_stringify this events1 now1 rnd1 w in
  let call2 := emit rt JSON_stringify this events2 now2 rnd2 call1.1 in
  let first1 := (settle call2.2 o2 (settle call1.2 o1 call2.1).1).1 in
  let first2 := (settle call1.2 o1 (settle call2.2 o2 call2.1).1).1 in
  localStorage first1 = localStorage first2
  ∧ (is_Some (localStorage first1 !! newStorageKey now1 rnd1) ↔ ∃ reason, o1 = Rejected reason)
  ∧ (is_Some (localStorage first1 !! newStorageKey now2 rnd2) ↔ ∃ reason, o2 = Rejected reason)
  ∧ ∀ k, k ≠ newStorageKey now1 rnd1 → k ≠ newStorageKey now2 rnd2 →
         localStorage first1 !! k = localStorage w !! k.
Proof.
  intros Hd Hne1 Hne2 Hdiff call1 call2 first1 first2.
  assert (Hk : newStorageKey now1 rnd1 ≠ newStorageKey now2 rnd2).
  { intros H. apply newStorageKey_inj in H as [? ?]. by destruct Hdiff. }
  subst first1 first2 call2 call1.
  rewrite (emit_durable rt JSON_stringify this events1) by done. cbn [fst snd].
  rewrite (emit_durable rt JSON_stringify this events2) by done. cbn [fst snd settle].
  rewrite !delivery_storage. cbn [localStorage].
  destruct o1 as [r1|e1], o2 as [r2|e2].
  - split; [apply delete_delete|]. split; [|split].
    + rewrite lookup_delete_ne, lookup_delete_eq by done.
      split; [by intros [? ?] | by intros [? ?]].
    + rewrite lookup_delete_eq. split; [by intros [? ?] | by intros [? ?]].
    + intros k H1 H2. by rewrite !lookup_delete_ne, !lookup_insert_ne.
  - split; [done|]. split; [|split].
    + rewrite lookup_delete_eq. split; [by intros [? ?] | by intros [? ?]].
    + rewrite lookup_delete_ne, lookup_insert_eq by done. split; [by eexists | by eexists].
    + intros k H1 H2. by rewrite lookup_delete_ne, !lookup_insert_ne.
  - split; [done|]. split; [|split].
    + rewrite lookup_delete_ne, lookup_insert_ne, lookup_insert_eq by done.
      split; [by eexists | by eexists].
    + rewrite lookup_delete_eq. split; [by intros [? ?] | by intros [? ?]].
    + intros k H1 H2. by rewrite lookup_delete_ne, !lookup_insert_ne.
  - split; [done|]. split; [|split].
    + rewrite lookup_insert_ne, lookup_insert_eq by done. split; [by eexists | by eexists].
    + rewrite lookup_insert_eq. split; [by eexists | by eexists].
    + intros k H1 H2. by rewrite !lookup_insert_ne.
Qed.

Lemma concurrent_batches_independent_witness :
  durable durableSink = true
  ∧ filteredEvents durableSink [infoEvent] ≠ []
  ∧ (17 ≠ 17 ∨ 4 ≠ 5)
  ∧ let call1 := emit browser messagesOnly durableSink [infoEvent] 17 4 emptyWorld in
    let call2 := emit browser messagesOnly durableSink [infoEvent] 17 5 call1.1 in
    localStorage
      (settle call2.2 (Rejected networkDown)
         (settle call1.2 (Fulfilled (VResponse 202)) call2.1).1).1
    = localStorage
        (settle call1.2 (Fulfilled (VResponse 202))
           (settle call2.2 (Rejected networkDown) call2.1).1).1.
Proof.
  assert (Hne : filteredEvents durableSink [infoEvent] ≠ []) by discriminate.
  assert (Hdiff : 17 ≠ 17 ∨ 4 ≠ 5) by (right; discriminate).
  split; [reflexivity|]. split; [exact Hne|]. split; [exact Hdiff|].
  exact (proj1 (concurrent_batches_independent browser messagesOnly durableSink
                  [infoEvent] [infoEvent] 17 4 17 5
                  (Fulfilled (VResponse 202)) (Rejected networkDown) emptyWorld
                  eq_refl Hne Hne Hdiff)).
Defined.

(** X13: replay is at least once, not exactly once: a durable instance
    constructed while the requests of an earlier one are still in flight
    finds the same entries stored and posts every one of them again. *)
Theorem second_construction_posts_again rt (options : Options.t) w :
  truthy (Options.token options) = true →
  truthy (prop (Options.durable options)) = true →
  hasLocalStorage rt = true →
  ∃ w1 this1 requests1 w2 this2 requests2,
    constructor rt (Some options) w = (w1, inr (this1, requests1))
    ∧ constructor rt (Some options) w1 = (w2, inr (this2, requests2))
    ∧ this2 = this1
    ∧ let posted := map (λ kv, requestFor this1 (VStr kv.2))
                        (pendingEntries (localStorage w)) in
      fetches (trace w1) = fetches (trace w) ++ posted
      ∧ fetches (trace w2) = fetches (trace w) ++ posted ++ posted.
Proof.
  intros Ht Hd Hl. eexists _, _, _, _, _, _.
  split; [by apply constructor_durable|].
  split; [by apply constructor_durable|].
  split; [done|]. cbn [trace localStorage].
  rewrite !fetches_app, !fetches_posted. split; [done|]. by rewrite <- app_assoc.
Qed.

Lemma second_construction_posts_again_witness :
  truthy (Options.token durableOptions) = true
  ∧ truthy (prop (Options.durable durableOptions)) = true
  ∧ hasLocalStorage browser = true
  ∧ ∃ w1 this1 requests1 w2 this2 requests2,
      constructor browser (Some durableOptions) leftoverWorld = (w1, inr (this1, requests1))
      ∧ constructor browser (Some durableOptions) w1 = (w2, inr (this2, requests2))
      ∧ this2 = this1.
Proof.
  split; [reflexivity|]. split; [reflexivity|]. split; [reflexivity|].
  destruct (second_construction_posts_again browser durableOptions leftoverWorld)
    as (w1 & this1 & requests1 & w2 & this2 & requests2 & H1 & H2 & H3 & _);
    [reflexivity | reflexivity | reflexivity |].
  exists w1, this1, requests1, w2, this2, requests2. by repeat split.
Defined.

(** X14: once the replayed requests have settled, in whatever order and
    with no other write in between, the batches still stored are the ones
    of before whose request was not fulfilled: the queue is empty when
    every request was fulfilled, a rejected batch waits for the next
    construction, and the entries of other programs are untouched. *)
Theorem replay_settlement_keeps_unacknowledged rt (options : Options.t) w
    (outcomes : list (string * Settled)) :
  truthy (Options.token options) = true →
  truthy (prop (Options.durable options)) = true →
  hasLocalStorage rt = true →
  ∃ w' this requests,
    constructor rt (Some options) w = (w', inr (this, requests))
    ∧ let after := localStorage (settleAll requests outcomes w').1 in
      pendingBatches after =
        filter (λ kv, acknowledged outcomes kv.1 = false) (pendingBatches (localStorage w))
      ∧ ((∀ k, is_Some (pendingBatches (localStorage w) !! k) →
               acknowledged outcomes k = true) →
         pendingBatches after = ∅)
      ∧ ∀ k, namespaced k = false → after !! k = localStorage w !! k.
Proof.
  intros Ht Hd Hl. eexists _, _, _. split; [by apply constructor_durable|].
  intros after.
  assert (Hafter : ∀ k, after !! k =
    if bool_decide (k ∈ (pendingEntries (localStorage w)).*1) && acknowledged outcomes k
    then None else localStorage w !! k).
  { intros k. subst after.
    destruct (settleAll_replay rt (configured rt options)
                (pendingEntries (localStorage w)).*1
                (foldl (λ acc kv, <[kv.1 := replay rt (configured rt options) kv.1]> acc)
                       (∅ : gmap string Pending) (pendingEntries (localStorage w)))
                outcomes
                (mkWorld (localStorage w)
                   (trace w ++ map (λ kv, EFetch (requestFor (configured rt options)
                                                             (VStr kv.2)))
                                   (pendingEntries (localStorage w))))) as [_ H].
    - intros k'. by rewrite replay_requests_lookup, lookup_empty.
    - apply H. }
  assert (Hp : pendingBatches after =
    filter (λ kv, acknowledged outcomes kv.1 = false) (pendingBatches (localStorage w))).
  { apply map_eq. intros k. apply option_eq. intros v.
    unfold pendingBatches. rewrite !map_lookup_filter_Some, Hafter. cbn [fst].
    destruct (bool_decide_reflect (k ∈ (pendingEntries (localStorage w)).*1)) as [Hin|Hin];
      cbn [andb].
    - destruct (acknowledged outcomes k);
        (split; [intros [? ?]; by repeat split | intros [[? ?] ?]; by repeat split]).
    - split; [|by intros [[? ?] ?]]. intros [Hv Hk]. destruct Hin.
      apply elem_of_pendingEntries_keys. eauto. }
  split; [exact Hp|]. split.
  - intros Hall. rewrite Hp. apply map_empty. intros k.
    apply eq_None_not_Some. intros [v Hkv].
    apply map_lookup_filter_Some in Hkv as [Hv Hack]. cbn in Hack.
    rewrite Hall in Hack by by eexists. done.
  - intros k Hk. rewrite Hafter.
    rewrite bool_decide_eq_false_2; [done|].
    intros [_ Hn]%elem_of_pendingEntries_keys. congruence.
Qed.

Lemma replay_settlement_keeps_unacknowledged_witness :
  truthy (Options.token durableOptions) = true
  ∧ truthy (prop (Options.durable durableOptions)) = true
  ∧ hasLocalStorage browser = true
  ∧ ∃ w' this requests,
      constructor browser (Some durableOptions) leftoverWorld = (w', inr (this, requests))
      ∧ pendingBatches
          (localStorage
             (settleAll requests
                [("structured-log-betterstack-sink-3-4", Rejected networkDown);
                 ("structured-log-betterstack-sink-1-2", Fulfilled (VResponse 202))]
                w').1)
        = filter (λ kv,
                   acknowledged
                     [("structured-log-betterstack-sink-3-4", Rejected networkDown);
                      ("structured-log-betterstack-sink-1-2", Fulfilled (VResponse 202))]
                     kv.1 = false)
                 (pendingBatches (localStorage leftoverWorld)).
Proof.
  split; [reflexivity|]. split; [reflexivity|]. split; [reflexivity|].
  destruct (replay_settlement_keeps_unacknowledged browser durableOptions leftoverWorld
              [("structured-log-betterstack-sink-3-4", Rejected networkDown);
               ("structured-log-betterstack-sink-1-2", Fulfilled (VResponse 202))])
    as (w' & this & requests & Hc & Hp & _);
    [reflexivity | reflexivity | reflexivity |].
  exists w', this, requests. by split.
Defined.

(** X15: a durable [emit] call whose request is fulfilled leaves no
    residue: when the generated key was not in use, the storage after the
    settlement is exactly the storage of before the call. *)
Theorem emit_durable_success_restores_storage rt
    (JSON_stringify : list MappedEvent.t → string) this events now rnd response w :
  durable this = true →
  filteredEvents this events ≠ [] →
  localStorage w !! newStorageKey now rnd = None →
  localStorage (emitAndSettle rt JSON_stringify this events now rnd (Fulfilled response) w).1
    = localStorage w
  ∧ storageWrites
      (trace (emitAndSettle rt JSON_stringify this events now rnd (Fulfilled response) w).1)
    = storageWrites (trace w)
      ++ [ESetItem (newStorageKey now rnd)
            (JSON_stringify (map mapEvent (filteredEvents this events)));
          ERemoveItem (newStorageKey now rnd)].
Proof.
  intros Hd Hne Hfree. unfold emitAndSettle, bind. rewrite emit_durable by done.
  cbn [settle]. rewrite delivery_fulfilled by apply newStorageKey_nonempty.
  cbn [fst localStorage trace]. split.
  - rewrite delete_insert_eq. by apply delete_id.
  - unfold storageWrites. rewrite !List.filter_app. cbn. by rewrite <- app_assoc.
Qed.

Lemma emit_durable_success_restores_storage_witness :
  durable durableSink = true
  ∧ filteredEvents durableSink [infoEvent] ≠ []
  ∧ localStorage leftoverWorld !! newStorageKey 17 4 = None
  ∧ localStorage
      (emitAndSettle browser messagesOnly durableSink [infoEvent] 17 4
         (Fulfilled (VResponse 202)) leftoverWorld).1
    = localStorage leftoverWorld.
Proof.
  assert (Hne : filteredEvents durableSink [infoEvent] ≠ []) by discriminate.
  assert (Hfree : localStorage leftoverWorld !! newStorageKey 17 4 = None)
    by by vm_compute.
  split; [reflexivity|]. split; [exact Hne|]. split; [exact Hfree|].
  exact (proj1 (emit_durable_success_restores_storage browser messagesOnly durableSink
                  [infoEvent] 17 4 (VResponse 202) leftoverWorld eq_refl Hne Hfree)).
Defined.
